(** * WebPageLinker: a directed graph of named pages with reachability queries

    Shallow embedding of [WebPageLinker.c] and the proofs of its
    specification.

    Representation.  The C program keeps the pages in a singly linked list
    hanging off the global [graphHead]; pages are only ever appended at the
    tail and never unlinked, so a [struct page *] into that list is modelled
    by the position of the page in the list, and the list itself by a Rocq
    [list page] in the order of the [next] pointers.  The adjacency list of a
    page ([struct link], walked through [next]) is the list of the [to]
    pointers in that order.  Every [malloc] and [strdup] is assumed to
    succeed. *)

From Stdlib Require Import ZArith String Ascii.
From stdpp Require Import base list strings.

Local Open Scope string_scope.
Local Open Scope list_scope.
Local Open Scope Z_scope.

(** ** Machine integers *)

Module Int.

(** [int] is 32 bits wide; an addition that leaves the range wraps around. *)
Definition modulus : Z := 2 ^ 32.
Definition max_signed : Z := 2 ^ 31 - 1.
Definition min_signed : Z := - 2 ^ 31.

Definition wrap (z : Z) : Z :=
  (z + 2 ^ 31) mod modulus - 2 ^ 31.

Definition add (a b : Z) : Z := wrap (a + b).


End Int.

(** ** Strings *)

(** [strcmp]: only the sign of the result is specified by C. *)
Definition strcmp (a b : string) : Z :=
  match String.compare a b with
  | Eq => 0
  | Lt => -1
  | Gt => 1
  end.

(** ** The graph store *)

(** [struct page]; [next] is the list order, [edges] holds the [to]
    pointers of the page's [struct link] chain. *)
Record page : Type := Page {
  name : string;
  edges : list nat;
  visited : Z
}.

(** The list reached from [graphHead]. *)
Abbreviation graph := (list page).

(** Messages written to [stderr]. *)
Inductive diag : Type :=
| DuplicatePage      (* "There is already a Page with that name." *)
| LinkNotFound       (* "Could not Find the link." *)
| InvalidInput       (* "Invalid Input." *)
| NoLinkArguments    (* "No Arguments were given in @addLinks" *)
| BadArgumentCount   (* "Either too many or too few arguments given." *)
| PageMissing.       (* "Either Page does not Exist." *)

(** The node [main] allocates for a new page. *)
Definition newPage (pageWord : string) : page :=
  {| name := pageWord; edges := []; visited := 0 |}.

(** [addPageToGraph(node)]: result, diagnostics, new store. *)
Definition addPageToGraph (g : graph) (node : page) : graph * Z * list diag :=
  match g with
  | [] => ([node], 0, [])
  | _ :: _ =>
      if existsb (fun cur => strcmp (name node) (name cur) =? 0) g
      then (g, 1, [DuplicatePage])
      else (g ++ [node], 0, [])
  end.

(** The page scan of [addLinkToPage]: the loop runs over the whole list
    without leaving it, so the pointer kept is the last page that matches. *)
Fixpoint scanLast (nm : string) (g : graph) (idx : nat) (seen : option nat)
  : option nat :=
  match g with
  | [] => seen
  | cur :: rest =>
      scanLast nm rest (S idx)
        (if strcmp nm (name cur) =? 0 then Some idx else seen)
  end.

(** Appending [linkNodeAct] at the tail of [src->edges]. *)
Definition appendLink (dst : nat) (p : page) : page :=
  {| name := name p; edges := edges p ++ [dst]; visited := visited p |}.

(** [addLinkToPage(srcPage, link)]. *)
Definition addLinkToPage (g : graph) (srcPage link : string)
  : graph * Z * list diag :=
  match scanLast srcPage g 0%nat None, scanLast link g 0%nat None with
  | Some src, Some linkNode => (alter (appendLink linkNode) src g, 0, [])
  | _, _ => (g, 1, [LinkNotFound])
  end.

(** [findNode(name)]: the first page with that name, or [NULL]. *)
Fixpoint findNodeFrom (nm : string) (g : graph) (idx : nat) : option nat :=
  match g with
  | [] => None
  | cur :: rest =>
      if strcmp (name cur) nm =? 0 then Some idx
      else findNodeFrom nm rest (S idx)
  end.

Definition findNode (g : graph) (nm : string) : option nat :=
  findNodeFrom nm g 0%nat.

(** [findPage(pageName)]: 0 when found, 1 otherwise. *)
Fixpoint findPage (g : graph) (pageName : string) : Z :=
  match g with
  | [] => 1
  | cur :: rest =>
      if strcmp (name cur) pageName =? 0 then 0 else findPage rest pageName
  end.

(** ** The reachability engine *)

(** [fromPage->visited = 1]. *)
Definition markVisited (p : page) : page :=
  {| name := name p; edges := edges p; visited := 1 |}.

(** The [while (curLink != NULL)] loop of [dfs], over the recursive call
    [rec].  The search never writes an [edges] field, so the chain walked is
    the one read when the loop starts. *)
Fixpoint dfsLinks (rec : graph -> nat -> option (Z * graph))
    (links : list nat) (g : graph) : option (Z * graph) :=
  match links with
  | [] => Some (0, g)
  | curLink :: rest =>
      match rec g curLink with
      | None => None
      | Some (r, g') => if r =? 0 then dfsLinks rec rest g' else Some (1, g')
      end
  end.

(** [dfs(fromPage, toPage)].  The recursion of the C function is bounded
    here by [fuel], the depth of the call stack allowed; [None] stands for a
    search that does not return within that depth (or that follows a pointer
    outside the store). *)
Fixpoint dfs (fuel : nat) (g : graph) (fromPage toPage : nat)
  : option (Z * graph) :=
  match fuel with
  | O => None
  | S fuel' =>
      match g !! fromPage, g !! toPage with
      | Some fp, Some tp =>
          if strcmp (name fp) (name tp) =? 0 then Some (1, g)
          else if visited fp =? 1 then Some (0, g)
          else
            dfsLinks (fun g' next => dfs fuel' g' next toPage)
                     (edges fp) (alter markVisited fromPage g)
      | _, _ => None
      end
  end.

(** [resetVisits()]. *)
Definition clearVisited (p : page) : page :=
  {| name := name p; edges := edges p; visited := 0 |}.

Definition resetVisits (g : graph) : graph := map clearVisited g.

(** Call depth that the searches of a store never exceed (see
    [dfs_returns]). *)
Definition searchDepth (g : graph) : nat := S (length g).

(** [printConnection(pageOne, pageTwo)]: the line printed and the store
    left behind.  [None] when a name is not in the store ([dfs] would read
    through the [NULL] that [findNode] returns) or the search does not
    return. *)
Definition printConnection (g : graph) (pageOne pageTwo : string)
  : option (Z * graph) :=
  match findNode g pageOne, findNode g pageTwo with
  | Some nodeOne, Some nodeTwo =>
      match dfs (searchDepth g) g nodeOne nodeTwo with
      | Some (r, g') => Some (r, resetVisits g')
      | None => None
      end
  | _, _ => None
  end.

(** ** The command interpreter *)

(** *** Splitting a line into words *)

Definition isDelim (delims : list ascii) (c : ascii) : bool :=
  existsb (Ascii.eqb c) delims.

Fixpoint skipDelims (delims : list ascii) (s : string) : string :=
  match s with
  | EmptyString => EmptyString
  | String c rest => if isDelim delims c then skipDelims delims rest else s
  end.

(** The token that starts at [s], and what follows its terminator. *)
Fixpoint takeToken (delims : list ascii) (s : string) : string * string :=
  match s with
  | EmptyString => (EmptyString, EmptyString)
  | String c rest =>
      if isDelim delims c then (EmptyString, rest)
      else let (tok, after) := takeToken delims rest in (String c tok, after)
  end.

(** One call of [strtok]: [None] is the [NULL] result; otherwise the token
    and the text the next call resumes from. *)
Definition strtok (delims : list ascii) (s : string) : option (string * string) :=
  match skipDelims delims s with
  | EmptyString => None
  | String c rest => Some (takeToken delims (String c rest))
  end.

(** All the tokens that repeated calls of [strtok(NULL, delims)] return on
    [s]; [word] is the token being read (empty between tokens). *)
Fixpoint strtokAll (delims : list ascii) (s : string) (word : string)
  : list string :=
  match s with
  | EmptyString =>
      match word with EmptyString => [] | _ => [word] end
  | String c rest =>
      if isDelim delims c then
        match word with
        | EmptyString => strtokAll delims rest EmptyString
        | _ => word :: strtokAll delims rest EmptyString
        end
      else strtokAll delims rest (word +:+ String c EmptyString)
  end.

Definition space : ascii := " "%char.
Definition tab : ascii := ascii_of_nat 9.
Definition newline : ascii := ascii_of_nat 10.

(** [isspace] in the C locale. *)
Definition isspace (c : ascii) : bool :=
  existsb (Ascii.eqb c)
    [space; tab; newline; ascii_of_nat 11; ascii_of_nat 12; ascii_of_nat 13].

(** [removeAllWhitespace(str)]. *)
Fixpoint removeAllWhitespace (str : string) : string :=
  match str with
  | EmptyString => EmptyString
  | String c rest =>
      if isspace c then removeAllWhitespace rest
      else String c (removeAllWhitespace rest)
  end.

(** [if (word[strlen(word) - 1] == '\n') word[strlen(word) - 1] = 0]. *)
Fixpoint chopNewline (word : string) : string :=
  match word with
  | EmptyString => EmptyString
  | String c EmptyString =>
      if Ascii.eqb c newline then EmptyString else word
  | String c rest => String c (chopNewline rest)
  end.

Definition cleanWord (word : string) : string :=
  removeAllWhitespace (chopNewline word).

(** The character that ends a C string. *)
Definition nul : ascii := ascii_of_nat 0.

(** The C string that starts a buffer: what [strlen] and [strtok] read of
    the line [getline] has stored, which is the line up to its first
    character 0, if it holds one. *)
Fixpoint cText (buffer : string) : string :=
  match buffer with
  | EmptyString => EmptyString
  | String c rest =>
      if Ascii.eqb c nul then EmptyString else String c (cText rest)
  end.

(** The words the [while (word != 0)] loop of [main] takes from a C
    string: the first comes from [strtok(line, " \t\n")], the others from
    [strtok(NULL, " ")]. *)
Definition wordsOf (text : string) : list string :=
  match strtok [space; tab; newline] text with
  | None => []
  | Some (word, after) =>
      cleanWord word :: map cleanWord (strtokAll [space] after EmptyString)
  end.

(** The words [main] sees on a line. *)
Definition lineWords (line : string) : list string := wordsOf (cText line).

(** *** Running a line *)

(** What [main] carries from one line to the next: the store behind
    [graphHead] and the counter [errSeen]. *)
Record state : Type := State {
  store : graph;
  errSeen : Z
}.

(** What a line writes: the lines on [stdout] and the messages on
    [stderr]. *)
Record effect : Type := Effect {
  printed : list Z;
  reported : list diag
}.

(** [while (pageLinks[i] != 0)] of the [@addPages] branch. *)
Fixpoint addPagesLoop (g : graph) (seen : Z) (pageLinks : list string)
  : graph * Z * list diag :=
  match pageLinks with
  | [] => (g, seen, [])
  | pageWord :: rest =>
      let '(g1, r, d) := addPageToGraph g (newPage pageWord) in
      let '(g2, seen2, ds) := addPagesLoop g1 (Int.add seen r) rest in
      (g2, seen2, d ++ ds)
  end.

(** [while (pageLinks[i] != 0)] of the [@addLinks] branch, from [i = 1]. *)
Fixpoint addLinksLoop (g : graph) (seen : Z) (srcPage : string)
    (links : list string) : graph * Z * list diag :=
  match links with
  | [] => (g, seen, [])
  | link :: rest =>
      let '(g1, r, d) := addLinkToPage g srcPage link in
      let '(g2, seen2, ds) := addLinksLoop g1 (Int.add seen r) srcPage rest in
      (g2, seen2, d ++ ds)
  end.

(** The body of the [getline] loop on the words of one line.  [pageLinks]
    is the array of the words after the first; [pageLinks !! i] is [None]
    where the array holds [NULL]. *)
Definition execWords (st : state) (words : list string)
  : option (state * effect) :=
  match words with
  | [] => Some (st, Effect [] [])
  | word :: pageLinks =>
      let addPages := strcmp word "@addPages" in
      let addLinks := strcmp word "@addLinks" in
      let isConnected := strcmp word "@isConnected" in
      if (addPages =? 0) || (addLinks =? 0) || (isConnected =? 0) then
        if addPages =? 0 then
          let '(g, seen, ds) := addPagesLoop (store st) (errSeen st) pageLinks in
          Some (State g seen, Effect [] ds)
        else if addLinks =? 0 then
          match pageLinks !! 0%nat, pageLinks !! 1%nat with
          | Some srcPage, Some _ =>
              let '(g, seen, ds) :=
                addLinksLoop (store st) (errSeen st) srcPage (drop 1 pageLinks) in
              Some (State g seen, Effect [] ds)
          | None, _ => Some (State (store st) 1, Effect [] [NoLinkArguments])
          | Some _, None => Some (st, Effect [] [])
          end
        else if isConnected =? 0 then
          match pageLinks !! 0%nat, pageLinks !! 1%nat, pageLinks !! 2%nat with
          | Some one, Some two, None =>
              let pageOne := findPage (store st) one in
              let pageTwo := findPage (store st) two in
              if negb (pageOne =? 0) || negb (pageTwo =? 0) then
                Some (State (store st) (Int.add (errSeen st) 1),
                      Effect [] [PageMissing])
              else
                match printConnection (store st) one two with
                | Some (r, g) => Some (State g (errSeen st), Effect [r] [])
                | None => None
                end
          | _, _, _ =>
              Some (State (store st) (Int.add (errSeen st) 1),
                    Effect [] [BadArgumentCount])
          end
        else Some (st, Effect [] [])
      else Some (State (store st) 1, Effect [] [InvalidInput])
  end.

Definition execLine (st : state) (line : string) : option (state * effect) :=
  execWords st (lineWords line).

(** The [getline] loop over lines already split into words: the state after
    the last line and what each line wrote, in order.  [None] when some line
    does not return. *)
Fixpoint runWords (st : state) (lines : list (list string))
  : option (state * list effect) :=
  match lines with
  | [] => Some (st, [])
  | words :: rest =>
      match execWords st words with
      | None => None
      | Some (st1, eff) =>
          match runWords st1 rest with
          | None => None
          | Some (st2, effs) => Some (st2, eff :: effs)
          end
      end
  end.

(** The [getline] loop on the text of the lines, each as [getline] hands it
    over (with its newline, but for a last line that has none). *)
Definition runLines (st : state) (lines : list string)
  : option (state * list effect) :=
  runWords st (map lineWords lines).

(** [graphHead = NULL] and [errSeen = 0]: the program reading its command
    stream ([main] started with at most a file name). *)
Definition initial : state := State [] 0.

(** [return errSeen >= 1]. *)
Definition exitStatus (st : state) : Z := if 1 <=? errSeen st then 1 else 0.

(** Number of words on the lines of an input. *)
Definition wordTotal (lines : list (list string)) : Z :=
  fold_right (fun words n => Z.of_nat (length words) + n) 0 lines.

(** ** Invariants of the store *)

(** Every [to] pointer points into the store. *)
Definition linksValid (g : graph) : Prop :=
  Forall (fun p => Forall (fun e => (e < length g)%nat) (edges p)) g.

Definition allUnvisited (g : graph) : Prop :=
  Forall (fun p => visited p = 0) g.

Definition namesUnique (g : graph) : Prop := NoDup (map name g).

Record wellFormed (g : graph) : Prop := WellFormed {
  wf_names : namesUnique g;
  wf_links : linksValid g;
  wf_visits : allUnvisited g
}.

(** Two stores with the same pages, names and links (the [visited] flags
    may differ). *)
Definition sameShape (g g' : graph) : Prop :=
  Forall2 (fun p q => name p = name q /\ edges p = edges q) g g'.

(** Pages a search can still enter. *)
Fixpoint unvisited (g : graph) : nat :=
  match g with
  | [] => 0%nat
  | p :: rest =>
      if visited p =? 1 then unvisited rest else S (unvisited rest)
  end.

(** ** Properties of searches and of lines *)

(** A search that returns: a result 0 or 1, on a store of the same shape
    in which no page has become enterable again. *)
Definition searchResult (g : graph) (x : option (Z * graph)) : Prop :=
  exists r g', x = Some (r, g') /\ (r = 0 \/ r = 1) /\ sameShape g g' /\
    (unvisited g' <= unvisited g)%nat.

(** Every page marked in [g] is still marked in [g']. *)
Definition marksKept (g g' : graph) : Prop :=
  forall i p, g !! i = Some p -> visited p = 1 ->
    exists p', g' !! i = Some p' /\ visited p' = 1.

(** A line has reported an error when it wrote to [stderr]. *)
Definition failed (eff : effect) : Prop := reported eff <> [].

(** The first word of a line, as [main] tells the verbs apart. *)
Inductive verb (word : string) : Prop :=
| VerbAddPages : word = "@addPages" -> verb word
| VerbAddLinks : word = "@addLinks" -> verb word
| VerbIsConnected : word = "@isConnected" -> verb word
| VerbNone :
    word <> "@addPages" -> word <> "@addLinks" -> word <> "@isConnected" ->
    verb word.

(** ** Sample inputs and stores *)

Definition nl : string := String newline EmptyString.

(** Three pages in a chain, and the commands that build it. *)
Definition chainInput : list string :=
  ["@addPages X Y Z" +:+ nl; "@addLinks X Y" +:+ nl; "@addLinks Y Z" +:+ nl].

Definition chainStore : graph :=
  [Page "X" [1%nat] 0; Page "Y" [2%nat] 0; Page "Z" [] 0].

(** A page already marked visited and without any link. *)
Definition markedStore : graph := [Page "X" [] 1; Page "Y" [0%nat] 0].

(** A linked pair of pages. *)
Definition linkedStore : graph := [Page "A" [1%nat] 0; Page "B" [] 0].

(** Commands of which one fails. *)
Definition mixedInput : list string :=
  ["@addPages X Y" +:+ nl; "@isConnected Q R" +:+ nl; "@addLinks X Y" +:+ nl;
   "@isConnected X Y" +:+ nl].

(** A store with a cycle and a self-loop. *)
Definition cyclicStore : graph :=
  [Page "A" [0%nat; 1%nat] 0; Page "B" [0%nat] 0; Page "C" [] 0].

(** Two stores with the same links, added in another order and some of
    them twice. *)
Definition forkStore : graph :=
  [Page "A" [1%nat; 2%nat] 0; Page "B" [0%nat] 0; Page "C" [] 0].

Definition forkStoreAgain : graph :=
  [Page "A" [2%nat; 1%nat; 2%nat] 0; Page "B" [0%nat; 0%nat] 0; Page "C" [] 0].

(** ** Paths, growth and the whole program *)

(** A chain of links from the page at [i] to the page at [j]. *)
Inductive linked (g : graph) : nat -> nat -> Prop :=
| linked_here (i : nat) (p : page) : g !! i = Some p -> linked g i i
| linked_step (i e j : nat) (p : page) :
    g !! i = Some p -> e ∈ edges p -> linked g e j -> linked g i j.

(** The page at [i] carries the mark of a search. *)
Definition marked (g : graph) (i : nat) : Prop :=
  exists p, g !! i = Some p /\ visited p = 1.

(** The page at [v] is not named [tn], and all its links lead to marked
    pages. *)
Definition closedAt (tn : string) (g : graph) (v : nat) : Prop :=
  exists p, g !! v = Some p /\ name p <> tn /\
    forall e, e ∈ edges p -> marked g e.

(** What a search for a page named [tn] that answers 0 has done to the
    store: it has only added marks, and every page it has marked is closed. *)
Definition settled (tn : string) (g g' : graph) : Prop :=
  sameShape g g' /\ marksKept g g' /\
  forall v, marked g' v -> marked g v \/ closedAt tn g' v.

(** The store [g'] holds every page of [g], at the same place and under the
    same name, with the links it had and possibly more after them. *)
Definition grows (g g' : graph) : Prop :=
  forall i p, g !! i = Some p ->
    exists p' more, g' !! i = Some p' /\ name p' = name p /\
      edges p' = edges p ++ more.

(** The names among [pageLinks] that are new to [known], each once, in the
    order of their first occurrence. *)
Fixpoint freshNames (known : list string) (pageLinks : list string)
  : list string :=
  match pageLinks with
  | [] => []
  | w :: rest =>
      if bool_decide (w ∈ known) then freshNames known rest
      else w :: freshNames (known ++ [w]) rest
  end.

(** The page [p] with the links [more] after its own. *)
Definition extendLinks (more : list nat) (p : page) : page :=
  {| name := name p; edges := edges p ++ more; visited := visited p |}.

(** Two stores with the same pages and names in which each page links to
    the same pages, in whatever order and however many times. *)
Definition sameLinks (g g' : graph) : Prop :=
  Forall2 (fun p q => name p = name q /\ forall e, e ∈ edges p <-> e ∈ edges q)
          g g'.

(** ** Words and lines *)

(** Every character of [s] passes the test [P]. *)
Fixpoint stringAll (P : ascii -> bool) (s : string) : bool :=
  match s with
  | EmptyString => true
  | String c rest => P c && stringAll P rest
  end.

(** No character of [w] is white space. *)
Definition spaceFree (w : string) : bool :=
  stringAll (fun c => negb (isspace c)) w.

(** A line of spaces, tabs and newlines only. *)
Definition blankLine (line : string) : bool :=
  stringAll (isDelim [space; tab; newline]) line.

(** No character of [w] is the one that ends a C string: [strlen] and
    [strtok] read all of [w]. *)
Definition nulFree (w : string) : bool :=
  stringAll (fun c => negb (Ascii.eqb c nul)) w.

(** A word as a user writes one: not empty, without white space, and
    without the character that would end the line for [main]. *)
Definition plainWord (w : string) : Prop :=
  w <> "" /\ spaceFree w = true /\ nulFree w = true.

(** No character of [w] is one of [delims]. *)
Definition avoids (delims : list ascii) (w : string) : bool :=
  stringAll (fun c => negb (isDelim delims c)) w.

(** The words [ws] with one space between each two. *)
Fixpoint joinWords (ws : list string) : string :=
  match ws with
  | [] => ""
  | w :: rest =>
      match rest with
      | [] => w
      | _ :: _ => w +:+ String space (joinWords rest)
      end
  end.

(** ** The program *)

(** What [main] writes to [stderr] before it reads a line. *)
Inductive startup : Type :=
| CannotOpen          (* "Couldn't open the file given." *)
| TooManyArguments.   (* "Too many argumnets were given." *)

(** [main(argc, argv)].  [file] is what [fopen(argv[1], "r")] gives: [None]
    when it fails, the lines of the file otherwise; [stdin] holds the lines
    of the standard input.  The result is the exit status, what was written
    before the first line was read, and what the lines wrote. *)
Definition main (argc : Z) (file : option (list string)) (stdin : list string)
  : option (Z * list startup * list effect) :=
  if 1 <? argc then
    match file with
    | None => Some (1, [CannotOpen], [])
    | Some lines =>
        let '(said, seen) :=
          if 2 <? argc then ([TooManyArguments], 1) else ([], 0) in
        match runLines (State [] seen) lines with
        | Some (st, effs) => Some (exitStatus st, said, effs)
        | None => None
        end
    end
  else
    match runLines (State [] 0) stdin with
    | Some (st, effs) => Some (exitStatus st, [], effs)
    | None => None
    end.

(** ** Lines in error *)

(** The lines that are in error, told from the words of the line and the
    names of the store the line meets: a first word that is no verb; for
    [@addPages], a name that is already the name of a page, or that the
    line holds twice; for [@addLinks], no argument at all, or, with a
    destination, a source or a destination that names no page (a source
    alone is no error); for [@isConnected], another count of arguments than
    two, or a name that names no page. *)
Inductive inError (g : graph) : list string -> Prop :=
| ErrUnknownVerb (word : string) (pageLinks : list string) :
    word <> "@addPages" -> word <> "@addLinks" -> word <> "@isConnected" ->
    inError g (word :: pageLinks)
| ErrNameTaken (pageLinks : list string) (w : string) :
    w ∈ pageLinks -> w ∈ map name g -> inError g ("@addPages" :: pageLinks)
| ErrNameRepeated (pageLinks : list string) :
    ~ NoDup pageLinks -> inError g ("@addPages" :: pageLinks)
| ErrNoArgument : inError g ["@addLinks"]
| ErrSourceMissing (srcPage link : string) (links : list string) :
    srcPage ∉ map name g ->
    inError g ("@addLinks" :: srcPage :: link :: links)
| ErrDestinationMissing (srcPage link : string) (links : list string) (w : string) :
    w ∈ link :: links -> w ∉ map name g ->
    inError g ("@addLinks" :: srcPage :: link :: links)
| ErrArgumentCount (pageLinks : list string) :
    length pageLinks <> 2%nat -> inError g ("@isConnected" :: pageLinks)
| ErrPageMissing (one two : string) :
    one ∉ map name g \/ two ∉ map name g ->
    inError g ["@isConnected"; one; two].

(** The lines in error as the specification has them (sections 4.3 and 7):
    the ones above and, a usage error too, an [@addLinks] line with a source
    and no destination. *)
Definition errorBySpec (g : graph) (words : list string) : Prop :=
  inError g words \/ exists srcPage, words = ["@addLinks"; srcPage].

(** A page, then a link line that names it as source and stops there. *)
Definition sourceOnlyInput : list string :=
  ["@addPages X" +:+ nl; "@addLinks X" +:+ nl].

(** ** Strings and lookups *)

Lemma compare_refl (a : string) : String.compare a a = Eq.
Proof.
  induction a as [|c a IH]; simpl; [done|].
  unfold Ascii.compare. by rewrite N.compare_refl.
Qed.

Lemma strcmp_eqb (a b : string) : (strcmp a b =? 0) = true <-> a = b.
Proof.
  unfold strcmp. split.
  - pose proof (String.compare_eq_iff a b) as H.
    destruct (String.compare a b); simpl; intros E; try discriminate. by apply H.
  - intros ->. by rewrite compare_refl.
Qed.

Lemma strcmp_refl (a : string) : (strcmp a a =? 0) = true.
Proof. by apply strcmp_eqb. Qed.

Lemma strcmp_neq (a b : string) : a <> b -> (strcmp a b =? 0) = false.
Proof.
  intros Hne. destruct (strcmp a b =? 0) eqn:E; [|done].
  by apply strcmp_eqb in E.
Qed.

Lemma strcmp_eqb_false (a b : string) : (strcmp a b =? 0) = false -> a <> b.
Proof. intros E ->. by rewrite strcmp_refl in E. Qed.

Lemma findPage_cases (g : graph) (nm : string) :
  findPage g nm = 0 \/ findPage g nm = 1.
Proof. induction g as [|p g IH]; simpl; [by right|]. destruct (_ =? 0); auto. Qed.

Lemma findPage_found (g : graph) (nm : string) :
  findPage g nm = 0 <-> nm ∈ map name g.
Proof.
  induction g as [|p g IH]; simpl.
  - split; [done|]. intros H. inversion H.
  - rewrite elem_of_cons. destruct (strcmp (name p) nm =? 0) eqn:E.
    + apply strcmp_eqb in E. split; auto.
    + apply strcmp_eqb_false in E. rewrite IH. split; [auto|].
      intros [->|H]; [done|auto].
Qed.

Lemma findPage_absent (g : graph) (nm : string) :
  findPage g nm = 1 <-> nm ∉ map name g.
Proof.
  rewrite <- findPage_found.
  destruct (findPage_cases g nm) as [-> | ->]; split; intros H; try done.
Qed.

Lemma findNodeFrom_split (nm : string) (l1 l2 : graph) (p : page) (k : nat) :
  nm ∉ map name l1 -> name p = nm ->
  findNodeFrom nm (l1 ++ p :: l2) k = Some (k + length l1)%nat.
Proof.
  revert k. induction l1 as [|q l1 IH]; simpl; intros k Hn Hp.
  - subst nm. rewrite strcmp_refl. f_equal. lia.
  - apply not_elem_of_cons in Hn. destruct Hn as [Hq Hn].
    rewrite strcmp_neq by done. rewrite IH by done. f_equal. lia.
Qed.

Lemma scanLast_split (nm : string) (l1 l2 : graph) (p : page) (k : nat)
    (seen : option nat) :
  nm ∉ map name l2 -> name p = nm ->
  scanLast nm (l1 ++ p :: l2) k seen = Some (k + length l1)%nat.
Proof.
  intros Hn Hp. revert k seen. induction l1 as [|q l1 IH]; simpl; intros k seen.
  - subst nm. rewrite strcmp_refl. replace (k + 0)%nat with k by lia.
    generalize (S k). clear -Hn. induction l2 as [|q l2 IH]; simpl; intros k'; [done|].
    apply not_elem_of_cons in Hn. destruct Hn as [Hq Hn].
    rewrite strcmp_neq by done. by apply IH.
  - rewrite IH. f_equal. lia.
Qed.

Lemma scanLast_absent (nm : string) (g : graph) (k : nat) :
  nm ∉ map name g -> scanLast nm g k None = None.
Proof.
  revert k. induction g as [|q g IH]; simpl; intros k Hn; [done|].
  apply not_elem_of_cons in Hn. destruct Hn as [Hq Hn].
  rewrite strcmp_neq by done. by apply IH.
Qed.

(** A name that occurs in the store splits it around its last
    occurrence. *)
Lemma last_occurrence (nm : string) (g : graph) :
  nm ∈ map name g ->
  exists l1 p l2, g = l1 ++ p :: l2 /\ name p = nm /\ nm ∉ map name l2.
Proof.
  induction g as [|q g IH]; simpl; intros Hin; [inversion Hin|].
  destruct (decide (nm ∈ map name g)) as [Hg|Hg].
  - destruct (IH Hg) as (l1 & p & l2 & -> & Hp & Hl2).
    by exists (q :: l1), p, l2.
  - apply elem_of_cons in Hin. destruct Hin as [->|Hin]; [|done].
    by exists [], q, g.
Qed.

Lemma first_occurrence (nm : string) (g : graph) :
  nm ∈ map name g ->
  exists l1 p l2, g = l1 ++ p :: l2 /\ name p = nm /\ nm ∉ map name l1.
Proof.
  induction g as [|q g IH]; simpl; intros Hin; [inversion Hin|].
  destruct (decide (name q = nm)) as [Hq|Hq].
  - exists [], q, g. split; [done|]. split; [done|]. simpl. apply not_elem_of_nil.
  - apply elem_of_cons in Hin. destruct Hin as [->|Hin]; [done|].
    destruct (IH Hin) as (l1 & p & l2 & -> & Hp & Hl1).
    exists (q :: l1), p, l2. split; [done|]. split; [done|].
    simpl. apply not_elem_of_cons. split; [congruence|done].
Qed.

(** With unique names the page at a position is the only one of its name. *)
Lemma unique_position (g : graph) (i : nat) (p : page) :
  namesUnique g -> g !! i = Some p ->
  exists l1 l2, g = l1 ++ p :: l2 /\ length l1 = i /\
    (name p ∉ map name l1) /\ (name p ∉ map name l2).
Proof.
  intros Hu Hi. exists (take i g), (drop (S i) g).
  pose proof (take_drop_middle g i p Hi) as Hg.
  split; [done|]. split.
  - apply length_take_le. apply lookup_lt_Some in Hi. lia.
  - unfold namesUnique in Hu. rewrite <- Hg in Hu.
    rewrite map_app in Hu. simpl in Hu.
    apply NoDup_app in Hu. destruct Hu as (_ & Hdis & Hr).
    apply NoDup_cons in Hr. destruct Hr as [Hr _]. split; [|done].
    intros Hin. apply (Hdis _ Hin). apply elem_of_cons. by left.
Qed.

Lemma findNode_position (g : graph) (i : nat) (p : page) :
  namesUnique g -> g !! i = Some p -> findNode g (name p) = Some i.
Proof.
  intros Hu Hi. destruct (unique_position g i p Hu Hi) as (l1 & l2 & -> & <- & H1 & _).
  unfold findNode. by rewrite findNodeFrom_split.
Qed.

Lemma scanLast_position (g : graph) (i : nat) (p : page) :
  namesUnique g -> g !! i = Some p -> scanLast (name p) g 0 None = Some i.
Proof.
  intros Hu Hi. destruct (unique_position g i p Hu Hi) as (l1 & l2 & -> & <- & _ & H2).
  by rewrite scanLast_split.
Qed.

Lemma findNode_found (g : graph) (nm : string) :
  findPage g nm = 0 ->
  exists i p, findNode g nm = Some i /\ g !! i = Some p /\ name p = nm.
Proof.
  intros H. apply findPage_found in H.
  destruct (first_occurrence nm g H) as (l1 & p & l2 & -> & Hp & Hl1).
  exists (length l1), p. unfold findNode. rewrite findNodeFrom_split by done.
  split; [done|]. split; [|done]. by apply list_lookup_middle.
Qed.

Lemma scanLast_found (g : graph) (nm : string) :
  nm ∈ map name g ->
  exists i p, scanLast nm g 0 None = Some i /\ g !! i = Some p /\ name p = nm.
Proof.
  intros H. destruct (last_occurrence nm g H) as (l1 & p & l2 & -> & Hp & Hl2).
  exists (length l1), p. rewrite scanLast_split by done.
  split; [done|]. split; [|done]. by apply list_lookup_middle.
Qed.

(** ** The shape of the store under a search *)

Lemma sameShape_refl (g : graph) : sameShape g g.
Proof. induction g; constructor; auto. Qed.

Lemma sameShape_trans (g1 g2 g3 : graph) :
  sameShape g1 g2 -> sameShape g2 g3 -> sameShape g1 g3.
Proof.
  intros H12. revert g3. induction H12 as [|p q g1 g2 [Hn He] _ IH]; intros g3 H23.
  - inversion H23. constructor.
  - inversion H23 as [|q' r g2' g3' [Hn' He'] Hrest]; subst.
    constructor; [split; congruence|]. by apply IH.
Qed.

Lemma sameShape_length (g g' : graph) : sameShape g g' -> length g' = length g.
Proof. intros H. symmetry. by eapply Forall2_length. Qed.

Lemma sameShape_names (g g' : graph) : sameShape g g' -> map name g' = map name g.
Proof. induction 1 as [|p q g g' [Hn He] _ IH]; simpl; congruence. Qed.

Lemma sameShape_edges (g g' : graph) : sameShape g g' -> map edges g' = map edges g.
Proof. induction 1 as [|p q g g' [Hn He] _ IH]; simpl; congruence. Qed.

Lemma sameShape_mark (g : graph) (i : nat) : sameShape g (alter markVisited i g).
Proof.
  revert i. induction g as [|p g IH]; intros i; [constructor|].
  destruct i as [|i]; simpl; constructor; auto.
  - apply sameShape_refl.
  - apply IH.
Qed.

Lemma sameShape_reset (g : graph) : sameShape g (resetVisits g).
Proof. induction g; simpl; constructor; auto. Qed.

Lemma linksValid_shape (g g' : graph) :
  sameShape g g' -> linksValid g -> linksValid g'.
Proof.
  intros Hs. unfold linksValid. rewrite (sameShape_length _ _ Hs).
  generalize (length g). intros n.
  induction Hs as [|p q g g' [Hn He] _ IH]; intros Hv; [constructor|].
  inversion Hv; subst. constructor; [congruence|auto].
Qed.

Lemma resetVisits_shape (g g' : graph) :
  sameShape g g' -> resetVisits g' = resetVisits g.
Proof.
  induction 1 as [|p q g g' [Hn He] _ IH]; simpl; [done|].
  f_equal; [|done]. unfold clearVisited. by rewrite Hn, He.
Qed.

Lemma resetVisits_unvisited (g : graph) : allUnvisited g -> resetVisits g = g.
Proof.
  induction 1 as [|p g Hp _ IH]; simpl; [done|].
  f_equal; [|done]. destruct p as [n e v]. simpl in *. by subst.
Qed.

Lemma allUnvisited_reset (g : graph) : allUnvisited (resetVisits g).
Proof. induction g; simpl; constructor; auto. Qed.

Lemma unvisited_le_length (g : graph) : (unvisited g <= length g)%nat.
Proof. induction g as [|p g IH]; simpl; [lia|]. destruct (_ =? 1); lia. Qed.

Lemma unvisited_mark (g : graph) (i : nat) (p : page) :
  g !! i = Some p -> (visited p =? 1) = false ->
  S (unvisited (alter markVisited i g)) = unvisited g.
Proof.
  revert i. induction g as [|q g IH]; intros i Hi Hv; [done|].
  destruct i as [|i]; simpl in *.
  - inversion Hi; subst. by rewrite Hv.
  - specialize (IH i Hi Hv). destruct (visited q =? 1); by rewrite <- IH.
Qed.

(** ** Termination of the search *)

Lemma dfsLinks_total (rec : graph -> nat -> option (Z * graph))
    (g0 : graph) (n : nat) :
  (forall g1 e, sameShape g0 g1 -> (unvisited g1 <= n)%nat ->
     (e < length g0)%nat -> searchResult g1 (rec g1 e)) ->
  forall links g,
    Forall (fun e => (e < length g0)%nat) links ->
    sameShape g0 g -> (unvisited g <= n)%nat ->
    searchResult g (dfsLinks rec links g).
Proof.
  intros Hrec links. induction links as [|e links IH]; intros g Hl Hs Hn; simpl.
  - exists 0, g. split; [done|]. split; [by left|]. split; [apply sameShape_refl|lia].
  - inversion Hl as [|? ? He Hl']; subst.
    destruct (Hrec g e Hs Hn He) as (r & g1 & -> & Hr & Hs1 & Hu1).
    destruct Hr as [-> | ->]; simpl.
    + destruct (IH g1 Hl') as (r2 & g2 & -> & Hr2 & Hs2 & Hu2).
      * by eapply sameShape_trans.
      * lia.
      * exists r2, g2. split; [done|]. split; [done|].
        split; [by eapply sameShape_trans|lia].
    + exists 1, g1. split; [done|]. split; [by right|]. by split.
Qed.

Lemma dfs_step (fuel : nat) (g : graph) (fromPage toPage : nat) :
  dfs (S fuel) g fromPage toPage =
  match g !! fromPage, g !! toPage with
  | Some fp, Some tp =>
      if strcmp (name fp) (name tp) =? 0 then Some (1, g)
      else if visited fp =? 1 then Some (0, g)
      else dfsLinks (fun g' next => dfs fuel g' next toPage)
                    (edges fp) (alter markVisited fromPage g)
  | _, _ => None
  end.
Proof. reflexivity. Qed.

Lemma dfs_total (fuel : nat) :
  forall g fromPage toPage,
    linksValid g -> (fromPage < length g)%nat -> (toPage < length g)%nat ->
    (unvisited g < fuel)%nat ->
    searchResult g (dfs fuel g fromPage toPage).
Proof.
  induction fuel as [|fuel IH]; intros g fromPage toPage Hv Hf Ht Hu; [lia|].
  rewrite dfs_step.
  destruct (lookup_lt_is_Some_2 g fromPage Hf) as [fp Hfp].
  destruct (lookup_lt_is_Some_2 g toPage Ht) as [tp Htp].
  rewrite Hfp, Htp.
  destruct (strcmp (name fp) (name tp) =? 0).
  { exists 1, g. split; [done|]. split; [by right|]. split; [apply sameShape_refl|lia]. }
  destruct (visited fp =? 1) eqn:Evis.
  { exists 0, g. split; [done|]. split; [by left|]. split; [apply sameShape_refl|lia]. }
  pose proof (unvisited_mark g fromPage fp Hfp Evis) as Hmark.
  pose proof (sameShape_mark g fromPage) as Hshape.
  set (g1 := alter markVisited fromPage g) in *.
  assert (Hlen : length g1 = length g) by (by apply sameShape_length).
  destruct (dfsLinks_total (fun g' next => dfs fuel g' next toPage) g1 (unvisited g1))
    with (links := edges fp) (g := g1) as (r & g' & Hd & Hr & Hs & Hle).
  - intros g2 e Hs2 Hu2 He. apply IH.
    + apply (linksValid_shape g); [|done]. by eapply sameShape_trans.
    + rewrite (sameShape_length _ _ Hs2). done.
    + rewrite (sameShape_length _ _ Hs2). lia.
    + lia.
  - rewrite Hlen. unfold linksValid in Hv. rewrite Forall_forall in Hv.
    apply Hv. by eapply list_elem_of_lookup_2.
  - apply sameShape_refl.
  - lia.
  - exists r, g'. split; [done|]. split; [done|].
    split; [by eapply sameShape_trans|lia].
Qed.

(** More call depth never changes what a search returns. *)
Lemma dfsLinks_mono (rec1 rec2 : graph -> nat -> option (Z * graph)) :
  (forall g e x, rec1 g e = Some x -> rec2 g e = Some x) ->
  forall links g x, dfsLinks rec1 links g = Some x -> dfsLinks rec2 links g = Some x.
Proof.
  intros Hrec links. induction links as [|e links IH]; intros g x; simpl; [done|].
  destruct (rec1 g e) as [[r g1]|] eqn:E; [|done].
  rewrite (Hrec _ _ _ E). destruct (r =? 0); [apply IH|done].
Qed.

Lemma dfs_fuel_mono (n : nat) :
  forall m g fromPage toPage x,
    (n <= m)%nat -> dfs n g fromPage toPage = Some x ->
    dfs m g fromPage toPage = Some x.
Proof.
  induction n as [|n IH]; intros m g fromPage toPage x Hle; [done|].
  destruct m as [|m]; [lia|]. rewrite !dfs_step.
  destruct (g !! fromPage) as [fp|]; [|done].
  destruct (g !! toPage) as [tp|]; [|done].
  destruct (_ =? 0); [done|]. destruct (_ =? 1); [done|].
  apply dfsLinks_mono. intros g' e y. apply IH. lia.
Qed.

(** The search of a store, at any depth that covers the pages not yet
    visited. *)
Lemma dfs_returns (g : graph) (fromPage toPage : nat) :
  linksValid g -> (fromPage < length g)%nat -> (toPage < length g)%nat ->
  exists r g', (r = 0 \/ r = 1) /\ sameShape g g' /\
    forall fuel, (unvisited g < fuel)%nat ->
      dfs fuel g fromPage toPage = Some (r, g').
Proof.
  intros Hv Hf Ht.
  destruct (dfs_total (S (unvisited g)) g fromPage toPage Hv Hf Ht)
    as (r & g' & Hd & Hr & Hs & _); [lia|].
  exists r, g'. split; [done|]. split; [done|].
  intros fuel Hfuel. eapply dfs_fuel_mono; [|exact Hd]. lia.
Qed.

(** A query on pages of the store prints its answer and leaves the shape of
    the store alone, with every flag cleared. *)
Lemma printConnection_returns (g : graph) (one two : string) :
  linksValid g -> findPage g one = 0 -> findPage g two = 0 ->
  exists r g', printConnection g one two = Some (r, g') /\ (r = 0 \/ r = 1) /\
    sameShape g g' /\ g' = resetVisits g.
Proof.
  intros Hv H1 H2.
  destruct (findNode_found g one H1) as (i & p & Hi & Hp & _).
  destruct (findNode_found g two H2) as (j & q & Hj & Hq & _).
  destruct (dfs_returns g i j Hv) as (r & g' & Hr & Hs & Hd).
  { by eapply lookup_lt_Some. } { by eapply lookup_lt_Some. }
  exists r, (resetVisits g'). unfold printConnection. rewrite Hi, Hj.
  rewrite Hd by (unfold searchDepth; pose proof (unvisited_le_length g); lia).
  split; [done|]. split; [done|]. split.
  - eapply sameShape_trans; [exact Hs|apply sameShape_reset].
  - by apply resetVisits_shape.
Qed.

(** ** Construction keeps the store well formed *)

Lemma wellFormed_nil : wellFormed [].
Proof. split; constructor. Qed.

Lemma existsb_name (g : graph) (nm : string) :
  existsb (fun cur => strcmp nm (name cur) =? 0) g = true <-> nm ∈ map name g.
Proof.
  induction g as [|p g IH]; simpl.
  - split; [done|]. intros H. inversion H.
  - rewrite orb_true_iff, IH, elem_of_cons, strcmp_eqb. done.
Qed.

Lemma addPageToGraph_duplicate (g : graph) (node : page) :
  name node ∈ map name g ->
  addPageToGraph g node = (g, 1, [DuplicatePage]).
Proof.
  intros Hin. unfold addPageToGraph. destruct g as [|p g]; [inversion Hin|].
  apply existsb_name in Hin. by rewrite Hin.
Qed.

Lemma addPageToGraph_fresh (g : graph) (node : page) :
  name node ∉ map name g ->
  addPageToGraph g node = (g ++ [node], 0, []).
Proof.
  intros Hn. unfold addPageToGraph. destruct g as [|p g]; [done|].
  destruct (existsb _ _) eqn:E; [|done]. by apply existsb_name in E.
Qed.

Lemma wellFormed_snoc (g : graph) (nm : string) :
  wellFormed g -> nm ∉ map name g -> wellFormed (g ++ [newPage nm]).
Proof.
  intros [Hu Hl Hv] Hn. split.
  - unfold namesUnique in *. rewrite map_app. simpl. apply NoDup_app.
    split; [done|]. split.
    + intros x Hx Hx'. apply list_elem_of_singleton in Hx'. by subst.
    + apply NoDup_singleton.
  - unfold linksValid in *. rewrite length_app. apply Forall_app. split.
    + eapply Forall_impl; [exact Hl|]. intros p Hp. simpl in Hp.
      eapply Forall_impl; [exact Hp|]. intros e He. simpl in *. lia.
    + repeat constructor.
  - unfold allUnvisited in *. apply Forall_app. split; [done|]. by repeat constructor.
Qed.

Lemma addPageToGraph_wellFormed (g : graph) (nm : string) :
  wellFormed g -> wellFormed (addPageToGraph g (newPage nm)).1.1.
Proof.
  intros Hwf. destruct (decide (nm ∈ map name g)) as [Hin|Hn].
  - by rewrite addPageToGraph_duplicate.
  - rewrite addPageToGraph_fresh by done. by apply wellFormed_snoc.
Qed.

Lemma alter_names (f : page -> page) (i : nat) (g : graph) :
  (forall p, name (f p) = name p) -> map name (alter f i g) = map name g.
Proof.
  intros Hf. revert i. induction g as [|p g IH]; intros i; [done|].
  destruct i as [|i]; simpl; f_equal; auto. apply IH.
Qed.

Lemma wellFormed_link (g : graph) (src dst : nat) :
  wellFormed g -> (dst < length g)%nat ->
  wellFormed (alter (appendLink dst) src g).
Proof.
  intros [Hu Hl Hv] Hd. split.
  - unfold namesUnique. by rewrite alter_names.
  - unfold linksValid in *. rewrite length_alter. apply Forall_alter; [done|].
    intros p _ Hp. simpl. apply Forall_app. split; [done|]. by repeat constructor.
  - unfold allUnvisited in *. by apply Forall_alter.
Qed.

Lemma addLinkToPage_missing (g : graph) (srcPage link : string) :
  srcPage ∉ map name g \/ link ∉ map name g ->
  addLinkToPage g srcPage link = (g, 1, [LinkNotFound]).
Proof.
  unfold addLinkToPage. intros [H|H].
  - by rewrite (scanLast_absent _ _ _ H).
  - rewrite (scanLast_absent _ _ _ H). by destruct (scanLast srcPage g 0 None).
Qed.

Lemma addLinkToPage_wellFormed (g : graph) (srcPage link : string) :
  wellFormed g -> wellFormed (addLinkToPage g srcPage link).1.1.
Proof.
  intros Hwf. destruct (decide (srcPage ∈ map name g)) as [Hs|Hs];
    [destruct (decide (link ∈ map name g)) as [Hd|Hd]|].
  - destruct (scanLast_found g srcPage Hs) as (i & p & Hi & _).
    destruct (scanLast_found g link Hd) as (j & q & Hj & Hq & _).
    unfold addLinkToPage. rewrite Hi, Hj. simpl.
    apply wellFormed_link; [done|]. by eapply lookup_lt_Some.
  - rewrite addLinkToPage_missing; auto.
  - rewrite addLinkToPage_missing; auto.
Qed.

Lemma addPagesLoop_wellFormed (pageLinks : list string) :
  forall g seen, wellFormed g -> wellFormed (addPagesLoop g seen pageLinks).1.1.
Proof.
  induction pageLinks as [|w rest IH]; intros g seen Hwf; simpl; [done|].
  pose proof (addPageToGraph_wellFormed g w Hwf) as H1.
  destruct (addPageToGraph g (newPage w)) as [[g1 r] d]. simpl in H1.
  specialize (IH g1 (Int.add seen r) H1).
  destruct (addPagesLoop g1 (Int.add seen r) rest) as [[g2 seen2] ds]. done.
Qed.

Lemma addLinksLoop_wellFormed (srcPage : string) (links : list string) :
  forall g seen, wellFormed g ->
    wellFormed (addLinksLoop g seen srcPage links).1.1.
Proof.
  induction links as [|w rest IH]; intros g seen Hwf; simpl; [done|].
  pose proof (addLinkToPage_wellFormed g srcPage w Hwf) as H1.
  destruct (addLinkToPage g srcPage w) as [[g1 r] d]. simpl in H1.
  specialize (IH g1 (Int.add seen r) H1).
  destruct (addLinksLoop g1 (Int.add seen r) srcPage rest) as [[g2 seen2] ds]. done.
Qed.

(** A query of a well-formed store hands the store back as it was. *)
Lemma printConnection_wellFormed (g : graph) (one two : string) :
  wellFormed g -> findPage g one = 0 -> findPage g two = 0 ->
  exists r, printConnection g one two = Some (r, g) /\ (r = 0 \/ r = 1).
Proof.
  intros [Hu Hl Hv] H1 H2.
  destruct (printConnection_returns g one two Hl H1 H2) as (r & g' & Hp & Hr & _ & ->).
  exists r. by rewrite <- (resetVisits_unvisited g Hv) at 2.
Qed.

(** ** The interpreter, verb by verb *)

Lemma execWords_addPages (st : state) (pageLinks : list string) :
  execWords st ("@addPages" :: pageLinks) =
  let '(g, seen, ds) := addPagesLoop (store st) (errSeen st) pageLinks in
  Some (State g seen, Effect [] ds).
Proof. reflexivity. Qed.

Lemma execWords_addLinks (st : state) (pageLinks : list string) :
  execWords st ("@addLinks" :: pageLinks) =
  match pageLinks with
  | [] => Some (State (store st) 1, Effect [] [NoLinkArguments])
  | [_] => Some (st, Effect [] [])
  | srcPage :: links =>
      let '(g, seen, ds) := addLinksLoop (store st) (errSeen st) srcPage links in
      Some (State g seen, Effect [] ds)
  end.
Proof. by destruct pageLinks as [|a [|b rest]]. Qed.

Lemma execWords_isConnected (st : state) (pageLinks : list string) :
  execWords st ("@isConnected" :: pageLinks) =
  match pageLinks with
  | [one; two] =>
      if (findPage (store st) one =? 0) && (findPage (store st) two =? 0) then
        match printConnection (store st) one two with
        | Some (r, g) => Some (State g (errSeen st), Effect [r] [])
        | None => None
        end
      else Some (State (store st) (Int.add (errSeen st) 1), Effect [] [PageMissing])
  | _ => Some (State (store st) (Int.add (errSeen st) 1), Effect [] [BadArgumentCount])
  end.
Proof.
  destruct pageLinks as [|a [|b [|c rest]]]; try reflexivity.
  change (execWords st ["@isConnected"; a; b]) with
    (if negb (findPage (store st) a =? 0) || negb (findPage (store st) b =? 0)
     then Some (State (store st) (Int.add (errSeen st) 1), Effect [] [PageMissing])
     else match printConnection (store st) a b with
          | Some (r, g) => Some (State g (errSeen st), Effect [r] [])
          | None => None
          end).
  by destruct (findPage (store st) a =? 0), (findPage (store st) b =? 0).
Qed.

Lemma execWords_invalid (st : state) (word : string) (pageLinks : list string) :
  word <> "@addPages" -> word <> "@addLinks" -> word <> "@isConnected" ->
  execWords st (word :: pageLinks) =
  Some (State (store st) 1, Effect [] [InvalidInput]).
Proof.
  intros H1 H2 H3. unfold execWords.
  by rewrite (strcmp_neq _ _ H1), (strcmp_neq _ _ H2), (strcmp_neq _ _ H3).
Qed.

Lemma verb_cases (word : string) : verb word.
Proof.
  destruct (decide (word = "@addPages")); [by apply VerbAddPages|].
  destruct (decide (word = "@addLinks")); [by apply VerbAddLinks|].
  destruct (decide (word = "@isConnected")); [by apply VerbIsConnected|].
  by apply VerbNone.
Qed.

(** Every line returns, and leaves a well-formed store well formed. *)
Lemma execWords_total (st : state) (words : list string) :
  wellFormed (store st) ->
  exists st' eff, execWords st words = Some (st', eff) /\ wellFormed (store st').
Proof.
  intros Hwf. destruct words as [|word pageLinks]; [by exists st, (Effect [] [])|].
  destruct (verb_cases word) as [-> | -> | -> | H1 H2 H3].
  - rewrite execWords_addPages.
    pose proof (addPagesLoop_wellFormed pageLinks (store st) (errSeen st) Hwf) as H.
    destruct (addPagesLoop _ _ _) as [[g seen] ds]. by eexists _, _.
  - rewrite execWords_addLinks. destruct pageLinks as [|a [|b rest]].
    + by eexists _, _.
    + by eexists _, _.
    + pose proof (addLinksLoop_wellFormed a (b :: rest) (store st) (errSeen st) Hwf) as H.
      destruct (addLinksLoop _ _ _ _) as [[g seen] ds]. by eexists _, _.
  - rewrite execWords_isConnected.
    destruct pageLinks as [|a [|b [|c rest]]]; try by eexists _, _.
    destruct (findPage (store st) a =? 0) eqn:Ea; [|by eexists _, _].
    destruct (findPage (store st) b =? 0) eqn:Eb; [|by eexists _, _].
    apply Z.eqb_eq in Ea, Eb. simpl.
    destruct (printConnection_wellFormed _ a b Hwf Ea Eb) as (r & -> & _).
    by eexists _, _.
  - rewrite execWords_invalid by done. by eexists _, _.
Qed.

Lemma runWords_total (lines : list (list string)) :
  forall st, wellFormed (store st) ->
    exists st' effs, runWords st lines = Some (st', effs) /\
      wellFormed (store st') /\ length effs = length lines.
Proof.
  induction lines as [|words rest IH]; intros st Hwf; simpl.
  - by exists st, [].
  - destruct (execWords_total st words Hwf) as (st1 & eff & -> & Hwf1).
    destruct (IH st1 Hwf1) as (st2 & effs & -> & Hwf2 & Hlen).
    exists st2, (eff :: effs). simpl. by rewrite Hlen.
Qed.

Lemma runWords_app (l1 : list (list string)) :
  forall l2 st st1 effs1,
    runWords st l1 = Some (st1, effs1) ->
    runWords st (l1 ++ l2) =
    match runWords st1 l2 with
    | Some (st2, effs2) => Some (st2, effs1 ++ effs2)
    | None => None
    end.
Proof.
  induction l1 as [|words l1 IH]; intros l2 st st1 effs1; simpl.
  - intros [= <- <-]. by destruct (runWords st l2) as [[? ?]|].
  - destruct (execWords st words) as [[sta eff]|]; [|done].
    destruct (runWords sta l1) as [[stb effs]|] eqn:E; [|done].
    intros [= <- <-]. rewrite (IH l2 _ _ _ E).
    by destruct (runWords stb l2) as [[? ?]|].
Qed.

(** ** The error counter *)

Lemma Int_add_small (a b : Z) :
  Int.min_signed <= a + b <= Int.max_signed -> Int.add a b = a + b.
Proof.
  unfold Int.add, Int.wrap, Int.modulus, Int.min_signed, Int.max_signed.
  intros H. rewrite Z.mod_small; lia.
Qed.

Lemma addPageToGraph_count (g : graph) (node : page) :
  (addPageToGraph g node).1.2 = Z.of_nat (length (addPageToGraph g node).2) /\
  (length (addPageToGraph g node).2 <= 1)%nat.
Proof.
  unfold addPageToGraph. destruct g as [|p g]; [simpl; lia|].
  destruct (existsb _ _); simpl; lia.
Qed.

Lemma addLinkToPage_count (g : graph) (srcPage link : string) :
  (addLinkToPage g srcPage link).1.2 =
    Z.of_nat (length (addLinkToPage g srcPage link).2) /\
  (length (addLinkToPage g srcPage link).2 <= 1)%nat.
Proof.
  unfold addLinkToPage.
  destruct (scanLast srcPage g 0 None), (scanLast link g 0 None); simpl; lia.
Qed.

Lemma addPagesLoop_count (pageLinks : list string) :
  forall g seen,
    0 <= seen -> seen + Z.of_nat (length pageLinks) <= Int.max_signed ->
    (addPagesLoop g seen pageLinks).1.2 =
      seen + Z.of_nat (length (addPagesLoop g seen pageLinks).2) /\
    (length (addPagesLoop g seen pageLinks).2 <= length pageLinks)%nat.
Proof.
  induction pageLinks as [|w rest IH]; intros g seen H0 Hmax; simpl; [lia|].
  simpl in Hmax.
  destruct (addPageToGraph_count g (newPage w)) as [Hr Hd].
  destruct (addPageToGraph g (newPage w)) as [[g1 r] d]. simpl in Hr, Hd.
  assert (Hadd : Int.add seen r = seen + r).
  { apply Int_add_small. unfold Int.min_signed, Int.max_signed in *. lia. }
  rewrite Hadd. destruct (IH g1 (seen + r)) as [Hs Hl]; [lia|lia|].
  destruct (addPagesLoop g1 (seen + r) rest) as [[g2 seen2] ds].
  simpl in *. rewrite length_app. lia.
Qed.

Lemma addLinksLoop_count (srcPage : string) (links : list string) :
  forall g seen,
    0 <= seen -> seen + Z.of_nat (length links) <= Int.max_signed ->
    (addLinksLoop g seen srcPage links).1.2 =
      seen + Z.of_nat (length (addLinksLoop g seen srcPage links).2) /\
    (length (addLinksLoop g seen srcPage links).2 <= length links)%nat.
Proof.
  induction links as [|w rest IH]; intros g seen H0 Hmax; simpl; [lia|].
  simpl in Hmax.
  destruct (addLinkToPage_count g srcPage w) as [Hr Hd].
  destruct (addLinkToPage g srcPage w) as [[g1 r] d]. simpl in Hr, Hd.
  assert (Hadd : Int.add seen r = seen + r).
  { apply Int_add_small. unfold Int.min_signed, Int.max_signed in *. lia. }
  rewrite Hadd. destruct (IH g1 (seen + r)) as [Hs Hl]; [lia|lia|].
  destruct (addLinksLoop g1 (seen + r) srcPage rest) as [[g2 seen2] ds].
  simpl in *. rewrite length_app. lia.
Qed.

Lemma length_nonempty {A : Type} (l : list A) : l <> [] <-> (0 < length l)%nat.
Proof. destruct l; simpl; split; intros; try done; lia. Qed.

(** While the counter stays in range, it is positive exactly when a line
    has failed. *)
Lemma execWords_count (st st' : state) (words : list string) (eff : effect) :
  execWords st words = Some (st', eff) ->
  0 <= errSeen st ->
  errSeen st + Z.of_nat (length words) <= Int.max_signed ->
  0 <= errSeen st' <= errSeen st + Z.of_nat (length words) /\
  (1 <= errSeen st' <-> 1 <= errSeen st \/ failed eff).
Proof.
  unfold failed. destruct words as [|word pageLinks].
  { simpl. intros [= <- <-] H0 Hmax. simpl. split; [lia|]. split; [auto|]. by intros [?|?]. }
  intros Hexec H0 Hmax. simpl length in Hmax.
  assert (Hinc : Int.add (errSeen st) 1 = errSeen st + 1).
  { apply Int_add_small. unfold Int.min_signed, Int.max_signed in *. lia. }
  destruct (verb_cases word) as [-> | -> | -> | H1 H2 H3].
  - rewrite execWords_addPages in Hexec.
    destruct (addPagesLoop_count pageLinks (store st) (errSeen st)) as [Hs Hl]; [lia|lia|].
    destruct (addPagesLoop _ _ _) as [[g seen] ds]. injection Hexec as <- <-.
    simpl in *. rewrite length_nonempty. lia.
  - rewrite execWords_addLinks in Hexec. destruct pageLinks as [|a [|b rest]].
    + injection Hexec as <- <-. simpl. split; [lia|]. split; [by right|lia].
    + injection Hexec as <- <-. simpl. split; [lia|]. split; [auto|]. by intros [?|?].
    + destruct (addLinksLoop_count a (b :: rest) (store st) (errSeen st)) as [Hs Hl];
        [lia|simpl length in *; lia|].
      destruct (addLinksLoop _ _ _ _) as [[g seen] ds]. injection Hexec as <- <-.
      simpl in *. rewrite length_nonempty. lia.
  - rewrite execWords_isConnected in Hexec.
    destruct pageLinks as [|a [|b [|c rest]]];
      try (injection Hexec as <- <-; simpl; rewrite Hinc;
           split; [lia|]; split; [by right|lia]).
    destruct (_ && _).
    + destruct (printConnection _ _ _) as [[r g]|]; [|done].
      injection Hexec as <- <-. simpl. split; [lia|]. split; [auto|]. by intros [?|?].
    + injection Hexec as <- <-. simpl. rewrite Hinc. split; [lia|]. split; [by right|lia].
  - rewrite execWords_invalid in Hexec by done. injection Hexec as <- <-.
    simpl. split; [lia|]. split; [by right|lia].
Qed.

Lemma runWords_count (lines : list (list string)) :
  forall st st' effs,
    runWords st lines = Some (st', effs) ->
    0 <= errSeen st ->
    errSeen st + wordTotal lines <= Int.max_signed ->
    0 <= errSeen st' /\
    (1 <= errSeen st' <-> 1 <= errSeen st \/ Exists failed effs).
Proof.
  induction lines as [|words rest IH]; intros st st' effs; simpl.
  - intros [= <- <-] H0 _. split; [done|]. rewrite Exists_nil. tauto.
  - destruct (execWords st words) as [[st1 eff]|] eqn:E1; [|done].
    destruct (runWords st1 rest) as [[st2 effs2]|] eqn:E2; [|done].
    intros [= <- <-] H0 Hmax.
    assert (0 <= wordTotal rest).
    { clear. induction rest; simpl; lia. }
    destruct (execWords_count _ _ _ _ E1 H0) as [Hr1 Hi1]; [lia|].
    destruct (IH _ _ _ E2) as [Hr2 Hi2]; [lia|lia|].
    split; [done|]. rewrite Exists_cons. tauto.
Qed.

Lemma runWords_cons (st : state) (words : list string) (rest : list (list string)) :
  runWords st (words :: rest) =
  match execWords st words with
  | None => None
  | Some (st1, eff) =>
      match runWords st1 rest with
      | None => None
      | Some (st2, effs) => Some (st2, eff :: effs)
      end
  end.
Proof. reflexivity. Qed.

Lemma execWords_query (st : state) (one two : string) (r : Z) (g' : graph) :
  findPage (store st) one = 0 -> findPage (store st) two = 0 ->
  printConnection (store st) one two = Some (r, g') ->
  execWords st ["@isConnected"; one; two] =
  Some (State g' (errSeen st), Effect [r] []).
Proof.
  intros H1 H2 Hp. rewrite execWords_isConnected, H1, H2, Hp. reflexivity.
Qed.

(** ** Stores the program can reach *)

Lemma runLines_wellFormed (lines : list string) (st : state) (effs : list effect) :
  runLines initial lines = Some (st, effs) -> wellFormed (store st).
Proof.
  unfold runLines. intros Hrun.
  destruct (runWords_total (map lineWords lines) initial wellFormed_nil)
    as (st' & effs' & Hrun' & Hwf & _).
  rewrite Hrun in Hrun'. by injection Hrun' as -> ->.
Qed.

(** ** Reachability queries *)

(** C1.  Whenever the program runs a query on two existing pages, no page
    of the store is marked visited before the query, none is marked after
    it, whatever the answer, and asking again gives the same answer: the
    second query starts from the store the first one found. *)
Theorem query_visited_flags_clean (lines : list string) (st : state)
    (effs : list effect) (A B : string) :
  runLines initial lines = Some (st, effs) ->
  findPage (store st) A = 0 -> findPage (store st) B = 0 ->
  allUnvisited (store st) /\
  exists r g',
    printConnection (store st) A B = Some (r, g') /\ (r = 0 \/ r = 1) /\
    allUnvisited g' /\
    printConnection g' A B = Some (r, g') /\
    runWords st [["@isConnected"; A; B]; ["@isConnected"; A; B]] =
      Some (State g' (errSeen st), [Effect [r] []; Effect [r] []]).
Proof.
  intros Hrun HA HB. pose proof (runLines_wellFormed _ _ _ Hrun) as Hwf.
  split; [apply Hwf|].
  destruct (printConnection_wellFormed _ A B Hwf HA HB) as (r & Hp & Hr).
  exists r, (store st). split; [done|]. split; [done|]. split; [apply Hwf|].
  split; [done|]. rewrite runWords_cons, (execWords_query st A B r (store st)) by done.
  rewrite runWords_cons, (execWords_query _ A B r (store st)) by done.
  reflexivity.
Qed.

Lemma query_visited_flags_clean_witness :
  runLines initial chainInput =
    Some (State chainStore 0, [Effect [] []; Effect [] []; Effect [] []]) /\
  findPage chainStore "Z" = 0 /\ findPage chainStore "X" = 0 /\
  allUnvisited chainStore /\
  exists r g',
    printConnection chainStore "Z" "X" = Some (r, g') /\ (r = 0 \/ r = 1) /\
    allUnvisited g' /\
    printConnection g' "Z" "X" = Some (r, g') /\
    runWords (State chainStore 0) [["@isConnected"; "Z"; "X"]; ["@isConnected"; "Z"; "X"]] =
      Some (State g' 0, [Effect [r] []; Effect [r] []]).
Proof.
  split; [reflexivity|]. split; [reflexivity|]. split; [reflexivity|].
  apply (query_visited_flags_clean chainInput (State chainStore 0)
           [Effect [] []; Effect [] []; Effect [] []] "Z" "X");
    vm_compute; reflexivity.
Defined.

(** C2.  A page is reachable from itself: the search started at a page with
    that same page as target answers 1 at once, whatever the page's links
    and whatever its visited flag, and leaves the flag as it was, because
    the names are compared before the flag is read or written. *)
Theorem self_query_is_true (g : graph) (X : string) :
  findPage g X = 0 ->
  (exists i p, findNode g X = Some i /\ g !! i = Some p /\ name p = X /\
     forall fuel, dfs (S fuel) g i i = Some (1, g)) /\
  printConnection g X X = Some (1, resetVisits g).
Proof.
  intros HX. destruct (findNode_found g X HX) as (i & p & Hi & Hp & Hn).
  assert (Hd : forall fuel, dfs (S fuel) g i i = Some (1, g)).
  { intros fuel. rewrite dfs_step, Hp. by rewrite strcmp_refl. }
  split.
  - by exists i, p.
  - unfold printConnection. rewrite Hi. unfold searchDepth. by rewrite Hd.
Qed.

Lemma self_query_is_true_witness :
  findPage markedStore "X" = 0 /\
  (exists i p, findNode markedStore "X" = Some i /\ markedStore !! i = Some p /\
     name p = "X" /\
     forall fuel, dfs (S fuel) markedStore i i = Some (1, markedStore)) /\
  printConnection markedStore "X" "X" = Some (1, resetVisits markedStore).
Proof.
  split; [reflexivity|]. apply (self_query_is_true markedStore "X"). reflexivity.
Defined.

(** C10.  A query only reads the graph: it returns with the same pages, in
    the same order, with the same names and the same links; every visited
    flag is 0 afterwards, so a store whose flags were 0 is handed back
    unchanged. *)
Theorem query_is_read_only (g : graph) (one two : string) :
  linksValid g -> findPage g one = 0 -> findPage g two = 0 ->
  exists r g',
    printConnection g one two = Some (r, g') /\
    length g' = length g /\
    map name g' = map name g /\
    map edges g' = map edges g /\
    allUnvisited g' /\
    (allUnvisited g -> g' = g).
Proof.
  intros Hv H1 H2.
  destruct (printConnection_returns g one two Hv H1 H2) as (r & g' & Hp & _ & Hs & Hg').
  exists r, g'. split; [done|].
  split; [by apply sameShape_length|].
  split; [by apply sameShape_names|].
  split; [by apply sameShape_edges|].
  split; [subst g'; apply allUnvisited_reset|].
  intros Hu. subst g'. by apply resetVisits_unvisited.
Qed.

Lemma chainStore_linksValid : linksValid chainStore.
Proof. unfold linksValid, chainStore. repeat constructor; simpl; lia. Defined.

Lemma query_is_read_only_witness :
  linksValid chainStore /\
  findPage chainStore "X" = 0 /\ findPage chainStore "Z" = 0 /\
  exists r g',
    printConnection chainStore "X" "Z" = Some (r, g') /\
    length g' = length chainStore /\
    map name g' = map name chainStore /\
    map edges g' = map edges chainStore /\
    allUnvisited g' /\
    (allUnvisited chainStore -> g' = chainStore).
Proof.
  split; [exact chainStore_linksValid|]. split; [reflexivity|]. split; [reflexivity|].
  apply (query_is_read_only chainStore "X" "Z");
    [exact chainStore_linksValid | reflexivity | reflexivity].
Defined.

(** ** Construction commands *)

(** C7.  Creating a page whose name is already in the store fails: the call
    returns 1 and reports the duplicate, and the store is exactly the one
    before the call (no page added, no page or link changed).  On an
    [@addPages] line the failure is counted as an error. *)
Theorem duplicate_page_rejected (g : graph) (node : page) (seen : Z) :
  name node ∈ map name g ->
  addPageToGraph g node = (g, 1, [DuplicatePage]) /\
  execWords (State g seen) ["@addPages"; name node] =
    Some (State g (Int.add seen 1), Effect [] [DuplicatePage]).
Proof.
  intros Hin. split; [by apply addPageToGraph_duplicate|].
  rewrite execWords_addPages. simpl.
  by rewrite (addPageToGraph_duplicate g (newPage (name node)) Hin).
Qed.

Lemma chainStore_has_Y : "Y" ∈ map name chainStore.
Proof. apply findPage_found. reflexivity. Defined.

Lemma duplicate_page_rejected_witness :
  "Y" ∈ map name chainStore /\
  addPageToGraph chainStore (newPage "Y") = (chainStore, 1, [DuplicatePage]) /\
  execWords (State chainStore 0) ["@addPages"; "Y"] =
    Some (State chainStore (Int.add 0 1), Effect [] [DuplicatePage]).
Proof.
  split; [exact chainStore_has_Y|].
  apply (duplicate_page_rejected chainStore (newPage "Y") 0). exact chainStore_has_Y.
Defined.

(** C6.  Adding a link fails, with result 1 and the store untouched, when
    the source or the destination name is not in the store.  When both are,
    the call returns 0 and the only change is one more link to the
    destination at the end of the source page's links; nothing is asked of
    the links already there, so a repeated link and a link from a page to
    itself are added like any other.  In a store with unique names, as every
    store the program builds is, the two pages are the ones of those
    names. *)
Theorem addLink_contract (g : graph) (srcPage link : string) :
  (srcPage ∉ map name g \/ link ∉ map name g ->
   addLinkToPage g srcPage link = (g, 1, [LinkNotFound])) /\
  (srcPage ∈ map name g -> link ∈ map name g ->
   exists i j src dst,
     g !! i = Some src /\ name src = srcPage /\
     g !! j = Some dst /\ name dst = link /\
     addLinkToPage g srcPage link = (alter (appendLink j) i g, 0, [])) /\
  (namesUnique g ->
   forall i j src dst,
     g !! i = Some src -> name src = srcPage ->
     g !! j = Some dst -> name dst = link ->
     addLinkToPage g srcPage link =
       (<[i := Page srcPage (edges src ++ [j]) (visited src)]> g, 0, [])).
Proof.
  split; [apply addLinkToPage_missing|]. split.
  { intros Hs Hd.
    destruct (scanLast_found g srcPage Hs) as (i & src & Hi & Hsrc & Hns).
    destruct (scanLast_found g link Hd) as (j & dst & Hj & Hdst & Hnd).
    exists i, j, src, dst. unfold addLinkToPage. by rewrite Hi, Hj. }
  intros Hu i j src dst Hi Hs Hj Hd. subst srcPage link. unfold addLinkToPage.
  rewrite (scanLast_position g i src Hu Hi), (scanLast_position g j dst Hu Hj).
  f_equal. f_equal. apply list_eq. intros k.
  rewrite list_lookup_alter, list_lookup_insert.
  destruct (decide (i = k)) as [->|Hne].
  - rewrite Hi. simpl. rewrite decide_True; [done|].
    split; [done|]. by eapply lookup_lt_Some.
  - rewrite decide_False; [done|]. intros [? _]. done.
Qed.

Lemma linkedStore_unique : namesUnique linkedStore.
Proof.
  unfold namesUnique, linkedStore. simpl.
  apply (bool_decide_unpack _). vm_compute. exact I.
Defined.

Lemma addLink_contract_witness :
  ("Q" ∉ map name linkedStore \/ "B" ∉ map name linkedStore) /\
  addLinkToPage linkedStore "Q" "B" = (linkedStore, 1, [LinkNotFound]) /\
  addLinkToPage linkedStore "A" "B" =
    ([Page "A" [1%nat; 1%nat] 0; Page "B" [] 0], 0, []) /\
  addLinkToPage linkedStore "B" "B" =
    ([Page "A" [1%nat] 0; Page "B" [1%nat] 0], 0, []).
Proof.
  assert (Hq : "Q" ∉ map name linkedStore) by (apply findPage_absent; reflexivity).
  split; [by left|]. split.
  - apply (addLink_contract linkedStore "Q" "B"). by left.
  - split.
    + apply (proj2 (proj2 (addLink_contract linkedStore "A" "B")) linkedStore_unique
               0%nat 1%nat (Page "A" [1%nat] 0) (Page "B" [] 0)); reflexivity.
    + apply (proj2 (proj2 (addLink_contract linkedStore "B" "B")) linkedStore_unique
               1%nat 1%nat (Page "B" [] 0) (Page "B" [] 0)); reflexivity.
Defined.

(** ** Command lines *)


Lemma chainStore_wellFormed : wellFormed chainStore.
Proof.
  split.
  - unfold namesUnique. apply (bool_decide_unpack _). vm_compute. exact I.
  - exact chainStore_linksValid.
  - unfold allUnvisited, chainStore. repeat constructor.
Defined.


(** The exit status against what the lines wrote to [stderr]: every line is
    run in the state the lines before it left, and the status is 1 when one
    of them wrote a message, 0 when none did (the count of errors being an
    [int], for inputs on which it cannot leave its range). *)
Lemma runLines_status (lines : list string) :
  wordTotal (map lineWords lines) <= Int.max_signed ->
  exists st effs,
    runLines initial lines = Some (st, effs) /\
    length effs = length lines /\
    (exitStatus st <> 0 <-> Exists failed effs) /\
    (exitStatus st = 0 \/ exitStatus st = 1) /\
    (forall before line after,
       lines = before ++ line :: after ->
       exists st1 effs1 st2 eff,
         runLines initial before = Some (st1, effs1) /\
         execLine st1 line = Some (st2, eff) /\
         effs !! length before = Some eff).
Proof.
  intros Hmax. unfold runLines.
  destruct (runWords_total (map lineWords lines) initial wellFormed_nil)
    as (st & effs & Hrun & Hwf & Hlen).
  exists st, effs. split; [done|]. split; [by rewrite Hlen, length_map|].
  destruct (runWords_count _ _ _ _ Hrun) as [H0 Hiff]; [simpl; lia|simpl; lia|].
  simpl in Hiff. unfold exitStatus. split; [|split].
  - destruct (1 <=? errSeen st) eqn:E.
    + apply Z.leb_le in E. split; [|done]. intros _. apply Hiff in E.
      destruct E as [E|E]; [lia|done].
    + apply Z.leb_gt in E. split; [done|]. intros Hex.
      assert (1 <= errSeen st) by (apply Hiff; by right). lia.
  - destruct (1 <=? errSeen st); auto.
  - intros before line after ->. rewrite map_app in Hrun. simpl in Hrun.
    destruct (runWords_total (map lineWords before) initial wellFormed_nil)
      as (st1 & effs1 & Hrun1 & Hwf1 & Hlen1).
    rewrite (runWords_app _ _ _ _ _ Hrun1), runWords_cons in Hrun.
    destruct (execWords_total st1 (lineWords line) Hwf1) as (st2 & eff & Hexec & _).
    rewrite Hexec in Hrun.
    destruct (runWords st2 (map lineWords after)) as [[st3 effs3]|]; [|done].
    injection Hrun as <- <-.
    exists st1, effs1, st2, eff. split; [done|]. split; [done|].
    rewrite length_map in Hlen1. rewrite <- Hlen1. by apply list_lookup_middle.
Qed.

Example mixedInput_run :
  runLines initial mixedInput =
  Some (State [Page "X" [1%nat] 0; Page "Y" [] 0] 1,
        [Effect [] []; Effect [] [PageMissing]; Effect [] []; Effect [1] []]).
Proof. reflexivity. Qed.

(** C3 (as stated, refuted).  An [@addLinks] line with a source and no
    destination is not reported: nothing is written to [stderr], the count
    stays 0 and the exit status with it. *)
Lemma addLinks_source_only_unreported :
  lineWords ("@addLinks X" +:+ nl) = ["@addLinks"; "X"] /\
  execLine (State chainStore 0) ("@addLinks X" +:+ nl) =
    Some (State chainStore 0, Effect [] []) /\
  ~ (exists st' eff,
       execLine (State chainStore 0) ("@addLinks X" +:+ nl) = Some (st', eff) /\
       (failed eff \/ 1 <= errSeen st' \/ exitStatus st' <> 0)).
Proof.
  split; [reflexivity|]. split; [reflexivity|].
  intros (st' & eff & Hexec & Hbad).
  change (Some (State chainStore 0, Effect [] []) = Some (st', eff)) in Hexec.
  injection Hexec as <- <-. unfold failed in Hbad. simpl in Hbad.
  destruct Hbad as [H|[H|H]]; [by apply H|lia|by apply H].
Qed.

(** C3 (amended).  An [@addLinks] line without a destination creates no
    link: the store is left as it is.  With no argument at all the line is
    a usage error, which sets the counter to 1; with the source alone the
    line does nothing, and reports nothing. *)
Theorem addLinks_without_destination (st : state) (line : string)
    (pageLinks : list string) :
  lineWords line = "@addLinks" :: pageLinks ->
  (length pageLinks <= 1)%nat ->
  exists st' eff,
    execLine st line = Some (st', eff) /\
    store st' = store st /\
    (pageLinks = [] ->
       eff = Effect [] [NoLinkArguments] /\ errSeen st' = 1 /\ exitStatus st' = 1) /\
    (forall srcPage, pageLinks = [srcPage] -> st' = st /\ eff = Effect [] []).
Proof.
  intros Hwords Hlen. unfold execLine. rewrite Hwords, execWords_addLinks.
  destruct pageLinks as [|a [|b rest]]; [| |simpl in Hlen; lia].
  - eexists _, _. split; [done|]. split; [done|]. split; [done|]. intros; done.
  - eexists _, _. split; [done|]. split; [done|]. split; [done|]. intros; done.
Qed.

Lemma addLinks_without_destination_witness :
  lineWords ("@addLinks X" +:+ nl) = "@addLinks" :: ["X"] /\
  (length ["X"] <= 1)%nat /\
  exists st' eff,
    execLine (State chainStore 0) ("@addLinks X" +:+ nl) = Some (st', eff) /\
    store st' = chainStore /\
    (["X"] = [] ->
       eff = Effect [] [NoLinkArguments] /\ errSeen st' = 1 /\ exitStatus st' = 1) /\
    (forall srcPage, ["X"] = [srcPage] ->
       st' = State chainStore 0 /\ eff = Effect [] []).
Proof.
  split; [reflexivity|]. split; [simpl; lia|].
  apply (addLinks_without_destination (State chainStore 0) ("@addLinks X" +:+ nl) ["X"]);
    [reflexivity | simpl; lia].
Defined.

(** ** Marks set by a search *)

Lemma marksKept_refl (g : graph) : marksKept g g.
Proof. intros i p Hi Hv. by exists p. Qed.

Lemma marksKept_trans (g1 g2 g3 : graph) :
  marksKept g1 g2 -> marksKept g2 g3 -> marksKept g1 g3.
Proof.
  intros H12 H23 i p Hi Hv. destruct (H12 i p Hi Hv) as (p' & Hi' & Hv').
  by apply (H23 i p').
Qed.

Lemma marksKept_mark (g : graph) (k : nat) : marksKept g (alter markVisited k g).
Proof.
  intros i p Hi Hv. rewrite list_lookup_alter. destruct (decide (k = i)) as [->|_].
  - rewrite Hi. by exists (markVisited p).
  - by exists p.
Qed.

Lemma dfsLinks_marksKept (rec : graph -> nat -> option (Z * graph)) :
  (forall g e r g', rec g e = Some (r, g') -> marksKept g g') ->
  forall links g r g', dfsLinks rec links g = Some (r, g') -> marksKept g g'.
Proof.
  intros Hrec links. induction links as [|e links IH]; intros g r g'; simpl.
  - intros [= <- <-]. apply marksKept_refl.
  - destruct (rec g e) as [[r1 g1]|] eqn:E; [|done].
    pose proof (Hrec _ _ _ _ E) as H1. destruct (r1 =? 0).
    + intros H2. eapply marksKept_trans; [exact H1|]. by eapply IH.
    + by intros [= <- <-].
Qed.

(** A search never clears a mark, and a marked page that is not the target
    is left at once. *)
Lemma dfs_marksKept (fuel : nat) :
  forall g fromPage toPage r g',
    dfs fuel g fromPage toPage = Some (r, g') -> marksKept g g'.
Proof.
  induction fuel as [|fuel IH]; intros g fromPage toPage r g'; [done|].
  rewrite dfs_step.
  destruct (g !! fromPage) as [fp|]; [|done].
  destruct (g !! toPage) as [tp|]; [|done].
  destruct (_ =? 0); [intros [= <- <-]; apply marksKept_refl|].
  destruct (_ =? 1); [intros [= <- <-]; apply marksKept_refl|].
  intros Hd. eapply marksKept_trans; [apply marksKept_mark|].
  eapply dfsLinks_marksKept; [|exact Hd].
  intros g1 e r1 g1'. apply IH.
Qed.

Lemma dfs_marked (g : graph) (i j : nat) (p q : page) (fuel : nat) :
  g !! i = Some p -> g !! j = Some q ->
  name p <> name q -> visited p = 1 ->
  dfs (S fuel) g i j = Some (0, g).
Proof.
  intros Hi Hj Hn Hv. rewrite dfs_step, Hi, Hj, (strcmp_neq _ _ Hn), Hv. done.
Qed.

(** ** Searching small graphs *)

Lemma dfs_self (g : graph) (i : nat) (p : page) (fuel : nat) :
  g !! i = Some p -> dfs (S fuel) g i i = Some (1, g).
Proof. intros Hi. rewrite dfs_step, Hi. by rewrite strcmp_refl. Qed.

Lemma dfs_enter (g : graph) (i j : nat) (p q : page) (fuel : nat) :
  g !! i = Some p -> g !! j = Some q ->
  name p <> name q -> visited p = 0 ->
  dfs (S fuel) g i j =
  dfsLinks (fun g' next => dfs fuel g' next j) (edges p) (alter markVisited i g).
Proof.
  intros Hi Hj Hn Hv. rewrite dfs_step, Hi, Hj, (strcmp_neq _ _ Hn), Hv. done.
Qed.

Lemma findPage_position (g : graph) (i : nat) (p : page) :
  g !! i = Some p -> findPage g (name p) = 0.
Proof.
  intros Hi. apply findPage_found. apply list_elem_of_In, in_map.
  apply list_elem_of_In. by eapply list_elem_of_lookup_2.
Qed.

(** The answer of a query is the answer of its search. *)
Lemma printConnection_answer (g g' : graph) (i j : nat) (p q : page) (r : Z) :
  wellFormed g -> g !! i = Some p -> g !! j = Some q ->
  dfs (searchDepth g) g i j = Some (r, g') ->
  printConnection g (name p) (name q) = Some (r, g).
Proof.
  intros Hwf Hi Hj Hd.
  destruct (printConnection_wellFormed g (name p) (name q) Hwf) as (r' & Hp & _);
    [by eapply findPage_position|by eapply findPage_position|].
  rewrite Hp. unfold printConnection in Hp.
  rewrite (findNode_position g i p), (findNode_position g j q), Hd in Hp;
    [|apply Hwf|done|apply Hwf|done].
  by injection Hp as -> _.
Qed.

(** C5.  In a store that holds neither [A] nor [B], for [A] and [B]
    different: once [@addPages A B] and [@addLinks A B] have run, both
    without error, the query from [A] to [B] prints 1 and the query from
    [B] to [A] prints 0. *)
Theorem single_link_is_one_way (st : state) (A B : string) :
  A <> B -> wellFormed (store st) ->
  A ∉ map name (store st) -> B ∉ map name (store st) ->
  exists st',
    runWords st [["@addPages"; A; B]; ["@addLinks"; A; B];
                 ["@isConnected"; A; B]; ["@isConnected"; B; A]] =
      Some (st', [Effect [] []; Effect [] []; Effect [1] []; Effect [0] []]) /\
    store st' =
      store st ++ [Page A [S (length (store st))] 0; Page B [] 0].
Proof.
  intros Hne Hwf HA HB. destruct st as [g seen]. cbn [store] in *.
  set (n := length g).
  set (g2 := (g ++ [newPage A]) ++ [newPage B]).
  assert (Hwf1 : wellFormed (g ++ [newPage A])) by (by apply wellFormed_snoc).
  assert (HB1 : B ∉ map name (g ++ [newPage A])).
  { rewrite map_app. simpl. intros [H|H]%elem_of_app; [done|].
    apply list_elem_of_singleton in H. by subst. }
  assert (Hwf2 : wellFormed g2) by (by apply wellFormed_snoc).
  assert (H2a : g2 !! n = Some (newPage A)).
  { unfold g2. rewrite <- app_assoc. by apply list_lookup_middle. }
  assert (H2b : g2 !! S n = Some (newPage B)).
  { unfold g2. apply list_lookup_middle. rewrite length_app. simpl. lia. }
  set (g3 := alter (appendLink (S n)) n g2).
  assert (Hwf3 : wellFormed g3).
  { apply wellFormed_link; [done|]. by eapply lookup_lt_Some. }
  assert (H3a : g3 !! n = Some (Page A [S n] 0)).
  { unfold g3. by rewrite list_lookup_alter_eq, H2a. }
  assert (H3b : g3 !! S n = Some (newPage B)).
  { unfold g3. rewrite list_lookup_alter_ne by lia. done. }
  assert (Hg3 : g3 = g ++ [Page A [S n] 0; Page B [] 0]).
  { unfold g3, g2. rewrite <- app_assoc. simpl.
    replace n with (length g + 0)%nat at 2 by (unfold n; lia).
    by rewrite alter_app_r. }
  assert (Hlink : addLinkToPage g2 A B = (g3, 0, [])).
  { unfold addLinkToPage.
    pose proof (scanLast_position g2 n (newPage A) (wf_names _ Hwf2) H2a) as Hs1.
    pose proof (scanLast_position g2 (S n) (newPage B) (wf_names _ Hwf2) H2b) as Hs2.
    cbn [name newPage] in Hs1, Hs2. by rewrite Hs1, Hs2. }
  assert (Hlen : length g3 = S (S n)).
  { rewrite Hg3, length_app. simpl. lia. }
  assert (Hq1 : printConnection g3 A B = Some (1, g3)).
  { apply (printConnection_answer g3 (alter markVisited n g3) n (S n)
             (Page A [S n] 0) (newPage B) 1 Hwf3 H3a H3b).
    unfold searchDepth. rewrite Hlen.
    rewrite (dfs_enter _ _ _ _ _ _ H3a H3b) by done. cbn [dfsLinks edges].
    assert (Hq : alter markVisited n g3 !! S n = Some (newPage B)).
    { rewrite list_lookup_alter_ne by lia. done. }
    by rewrite (dfs_self _ _ _ _ Hq). }
  assert (Hq2 : printConnection g3 B A = Some (0, g3)).
  { apply (printConnection_answer g3 (alter markVisited (S n) g3) (S n) n
             (newPage B) (Page A [S n] 0) 0 Hwf3 H3b H3a).
    unfold searchDepth. rewrite (dfs_enter _ _ _ _ _ _ H3b H3a); [done| |done].
    simpl. congruence. }
  exists (State g3 (Int.add (Int.add (Int.add seen 0) 0) 0)).
  split; [|by rewrite Hg3].
  rewrite runWords_cons, execWords_addPages. cbn [addPagesLoop store errSeen].
  rewrite (addPageToGraph_fresh g (newPage A)) by done.
  rewrite (addPageToGraph_fresh (g ++ [newPage A]) (newPage B)) by done.
  cbv beta iota zeta.
  rewrite runWords_cons, execWords_addLinks. cbn [addLinksLoop store errSeen].
  change ((g ++ [newPage A]) ++ [newPage B]) with g2. rewrite Hlink.
  cbv beta iota zeta.
  rewrite runWords_cons, (execWords_query _ A B 1 g3);
    [|apply (findPage_position g3 n _ H3a)|apply (findPage_position g3 (S n) _ H3b)|done].
  rewrite runWords_cons, (execWords_query _ B A 0 g3);
    [|apply (findPage_position g3 (S n) _ H3b)|apply (findPage_position g3 n _ H3a)|done].
  reflexivity.
Qed.

Lemma single_link_is_one_way_witness :
  "A" <> "B" /\ wellFormed (store initial) /\
  ("A" ∉ map name (store initial)) /\ ("B" ∉ map name (store initial)) /\
  exists st',
    runWords initial [["@addPages"; "A"; "B"]; ["@addLinks"; "A"; "B"];
                      ["@isConnected"; "A"; "B"]; ["@isConnected"; "B"; "A"]] =
      Some (st', [Effect [] []; Effect [] []; Effect [1] []; Effect [0] []]) /\
    store st' = store initial ++ [Page "A" [1%nat] 0; Page "B" [] 0].
Proof.
  assert (H1 : "A" <> "B") by discriminate.
  assert (H2 : "A" ∉ map name (store initial)) by (simpl; apply not_elem_of_nil).
  assert (H3 : "B" ∉ map name (store initial)) by (simpl; apply not_elem_of_nil).
  split; [exact H1|]. split; [exact wellFormed_nil|].
  split; [exact H2|]. split; [exact H3|].
  exact (single_link_is_one_way initial "A" "B" H1 wellFormed_nil H2 H3).
Defined.

(** Evaluation of a search on a store whose page names are variables: the
    comparisons of names are settled from the hypotheses at hand. *)
Ltac settle_names :=
  repeat first
    [ rewrite strcmp_refl
    | match goal with
      | H : ?a <> ?b |- context [strcmp ?a ?b] => rewrite (strcmp_neq a b H)
      end
    | progress unfold addLinkToPage, printConnection, findNode, searchDepth
    | progress cbn -[strcmp dfs execWords runWords] ].

(** C4.  Every search of a store whose links point into the store returns,
    cycles and self-loops included: a call depth of one more than the number
    of pages not yet visited is enough, and a deeper stack gives the same
    answer and the same store: entering a page marks it, the search never
    clears a mark, and a marked page that is not the target is left at once,
    so no page is entered twice.  Hence every query on pages of such a store
    prints its answer.  With the links [A -> B] and [B -> A] and a third
    page [C], the query from [A] to [A] prints 1 and the query from [A] to
    [C] prints 0. *)
Theorem search_terminates (g : graph) (fromPage toPage : nat) (A B C : string) :
  linksValid g -> (fromPage < length g)%nat -> (toPage < length g)%nat ->
  A <> B -> A <> C -> B <> C ->
  (exists r g',
     (r = 0 \/ r = 1) /\ sameShape g g' /\ marksKept g g' /\
     (unvisited g' <= unvisited g)%nat /\
     forall fuel, (unvisited g < fuel)%nat ->
       dfs fuel g fromPage toPage = Some (r, g')) /\
  (forall i j p q fuel,
     g !! i = Some p -> g !! j = Some q -> name p <> name q ->
     visited p = 1 -> dfs (S fuel) g i j = Some (0, g)) /\
  (forall one two,
     findPage g one = 0 -> findPage g two = 0 ->
     exists r g', printConnection g one two = Some (r, g') /\ (r = 0 \/ r = 1)) /\
  exists st,
    runWords initial
      [["@addPages"; A; B; C]; ["@addLinks"; A; B]; ["@addLinks"; B; A];
       ["@isConnected"; A; A]; ["@isConnected"; A; C]] =
    Some (st, [Effect [] []; Effect [] []; Effect [] [];
               Effect [1] []; Effect [0] []]) /\
    store st = [Page A [1%nat] 0; Page B [0%nat] 0; Page C [] 0].
Proof.
  intros Hv Hf Ht HAB HAC HBC. split; [|split; [|split]].
  - destruct (dfs_total (S (unvisited g)) g fromPage toPage Hv Hf Ht)
      as (r & g' & Hd & Hr & Hs & Hu); [lia|].
    exists r, g'. split; [done|]. split; [done|].
    split; [by eapply dfs_marksKept|]. split; [done|].
    intros fuel Hfuel. eapply dfs_fuel_mono; [|exact Hd]. lia.
  - intros i j p q fuel. apply dfs_marked.
  - intros one two H1 H2.
    destruct (printConnection_returns g one two Hv H1 H2) as (r & g' & Hp & Hr & _).
    by exists r, g'.
  - assert (HBA : B <> A) by congruence.
    assert (HCA : C <> A) by congruence.
    assert (HCB : C <> B) by congruence.
    eexists. split.
    + rewrite runWords_cons, execWords_addPages. settle_names.
      rewrite runWords_cons, execWords_addLinks. settle_names.
      rewrite runWords_cons, execWords_addLinks. settle_names.
      rewrite runWords_cons, execWords_isConnected. settle_names.
      rewrite dfs_step. settle_names.
      rewrite runWords_cons, execWords_isConnected. settle_names.
      rewrite dfs_step. settle_names.
      rewrite dfs_step. settle_names.
      rewrite dfs_step. settle_names.
      reflexivity.
    + reflexivity.
Qed.

Lemma cyclicStore_linksValid : linksValid cyclicStore.
Proof. unfold linksValid, cyclicStore. repeat constructor; simpl; lia. Defined.

Lemma search_terminates_witness :
  linksValid cyclicStore /\
  (0 < length cyclicStore)%nat /\ (2 < length cyclicStore)%nat /\
  "A" <> "B" /\ "A" <> "C" /\ "B" <> "C" /\
  (exists r g',
     (r = 0 \/ r = 1) /\ sameShape cyclicStore g' /\ marksKept cyclicStore g' /\
     (unvisited g' <= unvisited cyclicStore)%nat /\
     forall fuel, (unvisited cyclicStore < fuel)%nat ->
       dfs fuel cyclicStore 0 2 = Some (r, g')) /\
  (forall i j p q fuel,
     cyclicStore !! i = Some p -> cyclicStore !! j = Some q -> name p <> name q ->
     visited p = 1 -> dfs (S fuel) cyclicStore i j = Some (0, cyclicStore)) /\
  (forall one two,
     findPage cyclicStore one = 0 -> findPage cyclicStore two = 0 ->
     exists r g', printConnection cyclicStore one two = Some (r, g') /\
       (r = 0 \/ r = 1)) /\
  exists st,
    runWords initial
      [["@addPages"; "A"; "B"; "C"]; ["@addLinks"; "A"; "B"];
       ["@addLinks"; "B"; "A"];
       ["@isConnected"; "A"; "A"]; ["@isConnected"; "A"; "C"]] =
    Some (st, [Effect [] []; Effect [] []; Effect [] [];
               Effect [1] []; Effect [0] []]) /\
    store st = [Page "A" [1%nat] 0; Page "B" [0%nat] 0; Page "C" [] 0].
Proof.
  assert (H1 : (0 < length cyclicStore)%nat) by (simpl; lia).
  assert (H2 : (2 < length cyclicStore)%nat) by (simpl; lia).
  assert (H3 : "A" <> "B") by discriminate.
  assert (H4 : "A" <> "C") by discriminate.
  assert (H5 : "B" <> "C") by discriminate.
  split; [exact cyclicStore_linksValid|].
  split; [exact H1|]. split; [exact H2|].
  split; [exact H3|]. split; [exact H4|]. split; [exact H5|].
  exact (search_terminates cyclicStore 0 2 "A" "B" "C"
           cyclicStore_linksValid H1 H2 H3 H4 H5).
Defined.

Example cyclicStore_search :
  dfs 4 cyclicStore 0 2 =
  Some (0, [Page "A" [0%nat; 1%nat] 1; Page "B" [0%nat] 1; Page "C" [] 0]).
Proof. reflexivity. Qed.

(** ** What a search finds *)

Lemma sameShape_sym (g g' : graph) : sameShape g g' -> sameShape g' g.
Proof. induction 1 as [|p q g g' [Hn He] _ IH]; constructor; auto. Qed.

Lemma sameShape_lookup (g g' : graph) (i : nat) (p : page) :
  sameShape g g' -> g !! i = Some p ->
  exists p', g' !! i = Some p' /\ name p' = name p /\ edges p' = edges p.
Proof.
  intros Hs Hi. destruct (Forall2_lookup_l _ _ _ _ _ Hs Hi) as (p' & Hi' & Hn & He).
  by exists p'.
Qed.

Lemma linked_shape (g g' : graph) (i j : nat) :
  sameShape g g' -> linked g i j -> linked g' i j.
Proof.
  intros Hs. induction 1 as [i p Hi|i e j p Hi He _ IH].
  - destruct (sameShape_lookup _ _ _ _ Hs Hi) as (p' & Hi' & _). by eapply linked_here.
  - destruct (sameShape_lookup _ _ _ _ Hs Hi) as (p' & Hi' & _ & Hedges).
    eapply linked_step; [exact Hi'| |exact IH]. by rewrite Hedges.
Qed.

Lemma linked_trans (g : graph) (i j k : nat) :
  linked g i j -> linked g j k -> linked g i k.
Proof.
  induction 1 as [i p Hi|i e j p Hi He _ IH]; [done|].
  intros Hjk. eapply linked_step; [exact Hi|exact He|by apply IH].
Qed.

Lemma linked_target (g : graph) (i j : nat) : linked g i j -> is_Some (g !! j).
Proof. induction 1 as [i p Hi|]; [by exists p|done]. Qed.

Lemma dfsLinks_invariant (R : graph -> graph -> Prop)
    (rec : graph -> nat -> option (Z * graph)) :
  (forall g, R g g) -> (forall a b c, R a b -> R b c -> R a c) ->
  (forall g e r g', rec g e = Some (r, g') -> R g g') ->
  forall links g r g', dfsLinks rec links g = Some (r, g') -> R g g'.
Proof.
  intros Hrefl Htrans Hrec links.
  induction links as [|e links IH]; intros g r g'; simpl.
  - intros [= <- <-]. apply Hrefl.
  - destruct (rec g e) as [[r1 g1]|] eqn:E; [|done].
    pose proof (Hrec _ _ _ _ E) as H1. destruct (r1 =? 0).
    + intros H2. eapply Htrans; [exact H1|]. by eapply IH.
    + by intros [= <- <-].
Qed.

(** A search changes nothing but marks, whatever the store. *)
Lemma dfs_sameShape (fuel : nat) :
  forall g fromPage toPage r g',
    dfs fuel g fromPage toPage = Some (r, g') -> sameShape g g'.
Proof.
  induction fuel as [|fuel IH]; intros g fromPage toPage r g'; [done|].
  rewrite dfs_step.
  destruct (g !! fromPage) as [fp|]; [|done].
  destruct (g !! toPage) as [tp|]; [|done].
  destruct (_ =? 0); [intros [= <- <-]; apply sameShape_refl|].
  destruct (_ =? 1); [intros [= <- <-]; apply sameShape_refl|].
  intros Hd. eapply sameShape_trans; [apply sameShape_mark|].
  eapply (dfsLinks_invariant sameShape); [apply sameShape_refl|apply sameShape_trans| |exact Hd].
  intros g1 e r1 g1'. apply IH.
Qed.

(** The loop answers 1 only when one of its calls does. *)
Lemma dfsLinks_hit (rec : graph -> nat -> option (Z * graph)) :
  (forall g e r g', rec g e = Some (r, g') -> sameShape g g') ->
  forall links g r g',
    dfsLinks rec links g = Some (r, g') -> r <> 0 ->
    exists e g2 r2, e ∈ links /\ sameShape g g2 /\
      rec g2 e = Some (r2, g') /\ r2 <> 0.
Proof.
  intros Hrec links. induction links as [|e links IH]; intros g r g'; simpl.
  - intros [= <- <-] Hr. done.
  - destruct (rec g e) as [[r1 g1]|] eqn:E; [|done].
    destruct (r1 =? 0) eqn:Er.
    + intros Hd Hr. destruct (IH _ _ _ Hd Hr) as (e' & g2 & r2 & He' & Hs & Hrec2 & Hr2).
      exists e', g2, r2. split; [by apply list_elem_of_further|].
      split; [|done]. eapply sameShape_trans; [by eapply Hrec|exact Hs].
    + intros [= <- <-] _. exists e, g, r1.
      split; [apply list_elem_of_here|]. split; [apply sameShape_refl|].
      split; [done|]. intros ->. done.
Qed.

(** An answer other than 0 comes with a chain of links to a page of the
    target's name. *)
Lemma dfs_sound (fuel : nat) :
  forall g fromPage toPage r g',
    dfs fuel g fromPage toPage = Some (r, g') -> r <> 0 ->
    exists k pk tp, linked g fromPage k /\ g !! k = Some pk /\
      g !! toPage = Some tp /\ name pk = name tp.
Proof.
  induction fuel as [|fuel IH]; intros g fromPage toPage r g'; [done|].
  rewrite dfs_step.
  destruct (g !! fromPage) as [fp|] eqn:Hfp; [|done].
  destruct (g !! toPage) as [tp|] eqn:Htp; [|done].
  destruct (strcmp (name fp) (name tp) =? 0) eqn:En.
  { intros _ _. apply strcmp_eqb in En. exists fromPage, fp, tp.
    split; [by eapply linked_here|]. done. }
  destruct (visited fp =? 1); [by intros [= <- <-] Hr|].
  intros Hd Hr.
  destruct (dfsLinks_hit _ (fun g1 e r1 g1' => dfs_sameShape fuel g1 e toPage r1 g1')
              _ _ _ _ Hd Hr) as (e & g2 & r2 & He & Hs & Hrec & Hr2).
  destruct (IH _ _ _ _ _ Hrec Hr2) as (k & pk & tp2 & Hlink & Hk & Ht2 & Hname).
  assert (Hs2 : sameShape g2 g).
  { apply sameShape_sym. eapply sameShape_trans; [apply sameShape_mark|exact Hs]. }
  destruct (sameShape_lookup _ _ _ _ Hs2 Hk) as (pk0 & Hk0 & Hnk & _).
  destruct (sameShape_lookup _ _ _ _ Hs2 Ht2) as (tp0 & Ht0 & Hnt & _).
  exists k, pk0, tp. split.
  - eapply linked_step; [exact Hfp|exact He|]. by eapply linked_shape.
  - split; [done|]. split; [done|]. rewrite Htp in Ht0. injection Ht0 as <-. congruence.
Qed.

Lemma marked_kept (g g' : graph) (i : nat) :
  marksKept g g' -> marked g i -> marked g' i.
Proof. intros Hk (p & Hi & Hv). by apply (Hk i p). Qed.

Lemma settled_refl (tn : string) (g : graph) : settled tn g g.
Proof.
  split; [apply sameShape_refl|]. split; [apply marksKept_refl|]. by left.
Qed.

Lemma closedAt_kept (tn : string) (g g' : graph) (v : nat) :
  sameShape g g' -> marksKept g g' -> closedAt tn g v -> closedAt tn g' v.
Proof.
  intros Hs Hk (p & Hv & Hn & Hclosed).
  destruct (sameShape_lookup _ _ _ _ Hs Hv) as (p' & Hv' & Hn' & He').
  exists p'. split; [done|]. split; [congruence|].
  intros e He. rewrite He' in He. eapply marked_kept; [exact Hk|by apply Hclosed].
Qed.

Lemma settled_trans (tn : string) (g1 g2 g3 : graph) :
  settled tn g1 g2 -> settled tn g2 g3 -> settled tn g1 g3.
Proof.
  intros (Hs12 & Hk12 & Hc12) (Hs23 & Hk23 & Hc23).
  split; [by eapply sameShape_trans|]. split; [by eapply marksKept_trans|].
  intros v Hv. destruct (Hc23 v Hv) as [Hv2|Hclosed]; [|by right].
  destruct (Hc12 v Hv2) as [Hv1|Hclosed]; [by left|].
  right. by eapply closedAt_kept.
Qed.

(** When the loop answers 0, each of its calls has answered 0. *)
Lemma dfsLinks_zero (tn : string) (rec : graph -> nat -> option (Z * graph))
    (g0 : graph) :
  (forall g e g', sameShape g0 g -> rec g e = Some (0, g') ->
     settled tn g g' /\ marked g' e) ->
  forall links g g',
    sameShape g0 g -> dfsLinks rec links g = Some (0, g') ->
    settled tn g g' /\ forall e, e ∈ links -> marked g' e.
Proof.
  intros Hrec links. induction links as [|e links IH]; intros g g' Hs0; simpl.
  - intros [= <-]. split; [apply settled_refl|]. intros e He. inversion He.
  - destruct (rec g e) as [[r1 g1]|] eqn:E; [|done].
    destruct (r1 =? 0) eqn:Er; [|done].
    apply Z.eqb_eq in Er. subst r1. intros Hd.
    destruct (Hrec _ _ _ Hs0 E) as [Hs1 Hm1].
    assert (Hs01 : sameShape g0 g1) by (eapply sameShape_trans; [exact Hs0|apply Hs1]).
    destruct (IH _ _ Hs01 Hd) as [Hs2 Hm2].
    split; [by eapply settled_trans|].
    intros e' He'. apply elem_of_cons in He'. destruct He' as [->|He']; [|by apply Hm2].
    eapply marked_kept; [apply Hs2|exact Hm1].
Qed.

Lemma marked_mark (g : graph) (i : nat) (p : page) :
  g !! i = Some p -> marked (alter markVisited i g) i.
Proof.
  intros Hi. exists (markVisited p). by rewrite list_lookup_alter_eq, Hi.
Qed.

Lemma marked_mark_inv (g : graph) (i v : nat) :
  marked (alter markVisited i g) v -> v = i \/ marked g v.
Proof.
  intros (p & Hv & Hm). destruct (decide (i = v)) as [->|Hne]; [by left|].
  right. rewrite list_lookup_alter_ne in Hv by done. by exists p.
Qed.

(** A search that answers 0 leaves its starting page marked, and has
    closed every page it has marked. *)
Lemma dfs_zero (fuel : nat) :
  forall g fromPage toPage tp g',
    g !! toPage = Some tp ->
    dfs fuel g fromPage toPage = Some (0, g') ->
    settled (name tp) g g' /\ marked g' fromPage.
Proof.
  induction fuel as [|fuel IH]; intros g fromPage toPage tp g' Htp; [done|].
  rewrite dfs_step, Htp.
  destruct (g !! fromPage) as [fp|] eqn:Hfp; [|done].
  destruct (strcmp (name fp) (name tp) =? 0) eqn:En; [done|].
  apply strcmp_eqb_false in En.
  destruct (visited fp =? 1) eqn:Ev.
  { intros [= <-]. apply Z.eqb_eq in Ev. split; [apply settled_refl|by exists fp]. }
  intros Hd. set (g1 := alter markVisited fromPage g) in *.
  assert (Hs1 : sameShape g g1) by apply sameShape_mark.
  destruct (dfsLinks_zero (name tp) (fun g2 next => dfs fuel g2 next toPage) g1)
    with (links := edges fp) (g := g1) (g' := g')
    as [(Hs & Hk & Hc) Hm]; [|apply sameShape_refl|exact Hd|].
  { intros g2 e g3 Hs12 Hrec.
    assert (Hs02 : sameShape g g2) by (by eapply sameShape_trans).
    destruct (sameShape_lookup _ _ _ _ Hs02 Htp) as (tp2 & Htp2 & Hname & _).
    rewrite <- Hname. by eapply IH. }
  assert (Hfrom : marked g' fromPage).
  { eapply marked_kept; [exact Hk|]. by eapply marked_mark. }
  split; [|done].
  split; [by eapply sameShape_trans|].
  split; [eapply marksKept_trans; [apply marksKept_mark|exact Hk]|].
  intros v Hv. destruct (Hc v Hv) as [Hv1|Hclosed]; [|by right].
  destruct (marked_mark_inv _ _ _ Hv1) as [->|Hv0]; [|by left].
  right. destruct (sameShape_lookup g g' fromPage fp) as (fp' & Hfp' & Hn' & He');
    [by eapply sameShape_trans|done|].
  exists fp'. split; [done|]. split; [congruence|].
  intros e He. apply Hm. by rewrite <- He'.
Qed.

(** From a store without marks, an answer 0 means that no chain of links
    leads to a page of the target's name. *)
Lemma dfs_complete (fuel : nat) (g g' : graph) (fromPage toPage : nat) (tp : page) :
  allUnvisited g -> g !! toPage = Some tp ->
  dfs fuel g fromPage toPage = Some (0, g') ->
  forall k pk, linked g fromPage k -> g !! k = Some pk -> name pk <> name tp.
Proof.
  intros Hclean Htp Hd.
  destruct (dfs_zero _ _ _ _ _ _ Htp Hd) as [(Hs & Hk & Hc) Hfrom].
  assert (Hnone : forall v, ~ marked g v).
  { intros v (p & Hv & Hm). unfold allUnvisited in Hclean.
    rewrite Forall_forall in Hclean.
    assert (visited p = 0) by (apply Hclean; by eapply list_elem_of_lookup_2). lia. }
  assert (Hwalk : forall i k, linked g i k -> marked g' i -> marked g' k).
  { induction 1 as [i p Hi|i e j p Hi He _ IH]; [done|].
    intros Hmi. apply IH. destruct (Hc i Hmi) as [Hm0|(p' & Hi' & _ & Hclosed)].
    - by destruct (Hnone i).
    - apply Hclosed. destruct (sameShape_lookup _ _ _ _ Hs Hi) as (p2 & Hi2 & _ & He2).
      rewrite Hi' in Hi2. injection Hi2 as ->. by rewrite He2. }
  intros k pk Hlink Hpk Hname.
  destruct (Hc k (Hwalk _ _ Hlink Hfrom)) as [Hm0|(p' & Hk' & Hn' & _)].
  - by destruct (Hnone k).
  - destruct (sameShape_lookup _ _ _ _ Hs Hpk) as (p2 & Hk2 & Hn2 & _).
    rewrite Hk' in Hk2. injection Hk2 as ->. congruence.
Qed.

Lemma findNodeFrom_Some (nm : string) (g : graph) :
  forall k i, findNodeFrom nm g k = Some i ->
    (k <= i)%nat /\
    exists p, g !! (i - k)%nat = Some p /\ name p = nm /\
      forall m q, (m < i - k)%nat -> g !! m = Some q -> name q <> nm.
Proof.
  induction g as [|cur g IH]; intros k i; simpl; [done|].
  destruct (strcmp (name cur) nm =? 0) eqn:E.
  - intros [= <-]. apply strcmp_eqb in E. split; [lia|]. exists cur.
    replace (k - k)%nat with 0%nat by lia. split; [done|]. split; [done|]. lia.
  - intros Hf. apply strcmp_eqb_false in E.
    destruct (IH _ _ Hf) as (Hle & p & Hp & Hn & Hfirst).
    split; [lia|]. exists p.
    replace (i - k)%nat with (S (i - S k)) by lia. split; [done|]. split; [done|].
    intros [|m] q Hm Hq; simpl in Hq; [by injection Hq as <-|].
    apply (Hfirst m q); [lia|done].
Qed.

Lemma findNode_Some (g : graph) (nm : string) (i : nat) :
  findNode g nm = Some i ->
  exists p, g !! i = Some p /\ name p = nm /\
    forall m q, (m < i)%nat -> g !! m = Some q -> name q <> nm.
Proof.
  intros Hf. destruct (findNodeFrom_Some nm g 0 i Hf) as (_ & p & Hp & Hn & Hfirst).
  replace (i - 0)%nat with i in * by lia. by exists p.
Qed.

Lemma findNode_None (g : graph) (nm : string) :
  findNode g nm = None <-> findPage g nm = 1.
Proof.
  unfold findNode. generalize 0%nat. induction g as [|cur g IH]; intros k; simpl; [done|].
  destruct (strcmp (name cur) nm =? 0); [done|apply IH].
Qed.

Lemma unique_name (g : graph) (i j : nat) (p q : page) :
  namesUnique g -> g !! i = Some p -> g !! j = Some q -> name p = name q -> i = j.
Proof.
  intros Hu Hi Hj Hn. pose proof (findNode_position g i p Hu Hi) as H1.
  pose proof (findNode_position g j q Hu Hj) as H2. congruence.
Qed.

(** The answer of a query, read off the links. *)
Lemma printConnection_linked (g : graph) (one two : string) (i j : nat) :
  wellFormed g -> findNode g one = Some i -> findNode g two = Some j ->
  (printConnection g one two = Some (1, g) <-> linked g i j) /\
  (printConnection g one two = Some (0, g) <-> ~ linked g i j).
Proof.
  intros Hwf Hi Hj.
  destruct (findNode_Some _ _ _ Hi) as (p & Hp & Hnp & _).
  destruct (findNode_Some _ _ _ Hj) as (q & Hq & Hnq & _).
  destruct (printConnection_wellFormed g one two Hwf) as (r & Hprint & Hr).
  { subst one. by eapply findPage_position. }
  { subst two. by eapply findPage_position. }
  rewrite Hprint. pose proof Hprint as Hrun. unfold printConnection in Hrun.
  rewrite Hi, Hj in Hrun.
  destruct (dfs (searchDepth g) g i j) as [[r' g']|] eqn:Hd; [|done].
  injection Hrun as -> _.
  destruct Hr as [-> | ->].
  - assert (Hno : ~ linked g i j).
    { intros Hlink.
      by destruct (dfs_complete _ _ _ _ _ _ (wf_visits _ Hwf) Hq Hd j q Hlink Hq). }
    split; split; done.
  - assert (Hlink : linked g i j).
    { destruct (dfs_sound _ _ _ _ _ _ Hd) as (k & pk & tp & Hlink & Hk & Ht & Hname);
        [done|].
      rewrite Hq in Ht. injection Ht as <-.
      by rewrite <- (unique_name g k j pk q (wf_names _ Hwf) Hk Hq Hname). }
    split; split; done.
Qed.

(** ** Stores only grow *)

Lemma grows_refl (g : graph) : grows g g.
Proof. intros i p Hi. exists p, []. by rewrite app_nil_r. Qed.

Lemma grows_trans (g1 g2 g3 : graph) : grows g1 g2 -> grows g2 g3 -> grows g1 g3.
Proof.
  intros H12 H23 i p Hi.
  destruct (H12 i p Hi) as (p2 & m2 & Hi2 & Hn2 & He2).
  destruct (H23 i p2 Hi2) as (p3 & m3 & Hi3 & Hn3 & He3).
  exists p3, (m2 ++ m3). split; [done|]. split; [congruence|].
  by rewrite He3, He2, app_assoc.
Qed.

Lemma grows_snoc (g : graph) (node : page) : grows g (g ++ [node]).
Proof.
  intros i p Hi. exists p, []. rewrite app_nil_r.
  split; [|done]. rewrite lookup_app_l; [done|]. by eapply lookup_lt_Some.
Qed.

Lemma grows_link (g : graph) (src dst : nat) : grows g (alter (appendLink dst) src g).
Proof.
  intros i p Hi. rewrite list_lookup_alter. destruct (decide (src = i)) as [->|_].
  - rewrite Hi. by exists (appendLink dst p), [dst].
  - exists p, []. by rewrite app_nil_r.
Qed.

Lemma addPageToGraph_grows (g : graph) (nm : string) :
  grows g (addPageToGraph g (newPage nm)).1.1.
Proof.
  destruct (decide (nm ∈ map name g)) as [Hin|Hn].
  - rewrite addPageToGraph_duplicate by done. apply grows_refl.
  - rewrite addPageToGraph_fresh by done. apply grows_snoc.
Qed.

Lemma addLinkToPage_grows (g : graph) (srcPage link : string) :
  grows g (addLinkToPage g srcPage link).1.1.
Proof.
  unfold addLinkToPage.
  destruct (scanLast srcPage g 0 None) as [i|]; [|apply grows_refl].
  destruct (scanLast link g 0 None) as [j|]; [|apply grows_refl].
  apply grows_link.
Qed.

Lemma addPagesLoop_grows (pageLinks : list string) :
  forall g seen, grows g (addPagesLoop g seen pageLinks).1.1.
Proof.
  induction pageLinks as [|w rest IH]; intros g seen; simpl; [apply grows_refl|].
  pose proof (addPageToGraph_grows g w) as H1.
  destruct (addPageToGraph g (newPage w)) as [[g1 r] d]. simpl in H1.
  specialize (IH g1 (Int.add seen r)).
  destruct (addPagesLoop g1 (Int.add seen r) rest) as [[g2 seen2] ds].
  by eapply grows_trans.
Qed.

Lemma addLinksLoop_grows (srcPage : string) (links : list string) :
  forall g seen, grows g (addLinksLoop g seen srcPage links).1.1.
Proof.
  induction links as [|w rest IH]; intros g seen; simpl; [apply grows_refl|].
  pose proof (addLinkToPage_grows g srcPage w) as H1.
  destruct (addLinkToPage g srcPage w) as [[g1 r] d]. simpl in H1.
  specialize (IH g1 (Int.add seen r)).
  destruct (addLinksLoop g1 (Int.add seen r) srcPage rest) as [[g2 seen2] ds].
  by eapply grows_trans.
Qed.

Lemma execWords_grows (st st' : state) (words : list string) (eff : effect) :
  wellFormed (store st) -> execWords st words = Some (st', eff) ->
  grows (store st) (store st').
Proof.
  intros Hwf. destruct words as [|word pageLinks].
  { intros [= <- <-]. apply grows_refl. }
  destruct (verb_cases word) as [-> | -> | -> | H1 H2 H3].
  - rewrite execWords_addPages.
    pose proof (addPagesLoop_grows pageLinks (store st) (errSeen st)) as H.
    destruct (addPagesLoop _ _ _) as [[g seen] ds]. by intros [= <- <-].
  - rewrite execWords_addLinks. destruct pageLinks as [|a [|b rest]].
    + intros [= <- <-]. apply grows_refl.
    + intros [= <- <-]. apply grows_refl.
    + pose proof (addLinksLoop_grows a (b :: rest) (store st) (errSeen st)) as H.
      destruct (addLinksLoop _ _ _ _) as [[g seen] ds]. by intros [= <- <-].
  - rewrite execWords_isConnected.
    destruct pageLinks as [|a [|b [|c rest]]];
      try (intros [= <- <-]; apply grows_refl).
    destruct (findPage (store st) a =? 0) eqn:Ea;
      [|intros [= <- <-]; apply grows_refl].
    destruct (findPage (store st) b =? 0) eqn:Eb;
      [|intros [= <- <-]; apply grows_refl].
    apply Z.eqb_eq in Ea, Eb. simpl.
    destruct (printConnection_wellFormed _ a b Hwf Ea Eb) as (r & -> & _).
    intros [= <- <-]. apply grows_refl.
  - rewrite execWords_invalid by done. intros [= <- <-]. apply grows_refl.
Qed.

Lemma runWords_grows (lines : list (list string)) :
  forall st st' effs,
    wellFormed (store st) -> runWords st lines = Some (st', effs) ->
    grows (store st) (store st') /\ wellFormed (store st').
Proof.
  induction lines as [|words rest IH]; intros st st' effs Hwf; simpl.
  - intros [= <- <-]. split; [apply grows_refl|done].
  - destruct (execWords_total st words Hwf) as (st1 & eff & Hexec & Hwf1).
    rewrite Hexec.
    destruct (runWords st1 rest) as [[st2 effs2]|] eqn:Hrun; [|done].
    intros [= <- <-]. destruct (IH _ _ _ Hwf1 Hrun) as [Hg Hwf2].
    split; [|done]. eapply grows_trans; [|exact Hg]. by eapply execWords_grows.
Qed.

Lemma linked_grows (g g' : graph) (i j : nat) :
  grows g g' -> linked g i j -> linked g' i j.
Proof.
  intros Hg. induction 1 as [i p Hi|i e j p Hi He _ IH].
  - destruct (Hg i p Hi) as (p' & m & Hi' & _). by eapply linked_here.
  - destruct (Hg i p Hi) as (p' & m & Hi' & _ & Hedges).
    eapply linked_step; [exact Hi'| |exact IH]. rewrite Hedges.
    apply elem_of_app. by left.
Qed.

Lemma findNode_grows (g g' : graph) (nm : string) (i : nat) :
  grows g g' -> namesUnique g' -> findNode g nm = Some i -> findNode g' nm = Some i.
Proof.
  intros Hg Hu Hf. destruct (findNode_Some _ _ _ Hf) as (p & Hp & Hn & _).
  destruct (Hg i p Hp) as (p' & m & Hp' & Hn' & _).
  rewrite <- Hn, <- Hn'. by apply findNode_position.
Qed.

(** ** Lookups and new pages *)

Lemma findNodeFrom_app (nm : string) (g h : graph) :
  forall k, findNodeFrom nm (g ++ h) k =
    match findNodeFrom nm g k with
    | Some i => Some i
    | None => findNodeFrom nm h (k + length g)%nat
    end.
Proof.
  induction g as [|cur g IH]; intros k; simpl.
  - by replace (k + 0)%nat with k by lia.
  - destruct (strcmp (name cur) nm =? 0); [done|].
    rewrite IH. by replace (S k + length g)%nat with (k + S (length g))%nat by lia.
Qed.

Lemma findPage_app (g h : graph) (nm : string) :
  findPage (g ++ h) nm = if findPage g nm =? 0 then 0 else findPage h nm.
Proof.
  induction g as [|cur g IH]; simpl; [done|].
  destruct (strcmp (name cur) nm =? 0); [done|apply IH].
Qed.

(** X1.  [findNode] returns the first page of the store that bears the
    name: the page at the position returned has that name and no page
    before it has; it returns [NULL] exactly when [findPage] returns 1, and a
    position exactly when [findPage] returns 0. *)
Theorem findNode_first_match (g : graph) (nm : string) :
  (findNode g nm = None <-> findPage g nm = 1) /\
  (is_Some (findNode g nm) <-> findPage g nm = 0) /\
  (forall i, findNode g nm = Some i ->
     exists p, g !! i = Some p /\ name p = nm /\
       forall m q, (m < i)%nat -> g !! m = Some q -> name q <> nm).
Proof.
  split; [apply findNode_None|]. split; [|apply findNode_Some].
  pose proof (findNode_None g nm) as Hnone.
  destruct (findPage_cases g nm) as [H0|H1].
  - split; [done|]. intros _. destruct (findNode g nm) as [i|] eqn:E; [by exists i|].
    assert (findPage g nm = 1) by (by apply Hnone). lia.
  - split; [|lia]. intros [i Hi]. apply Hnone in H1. congruence.
Qed.

(** X2.  A page created under a name that the store does not hold is put
    after all the others, without links and unvisited; looking the name up
    then gives that last position, and the lookups of all other names are
    what they were. *)
Theorem new_page_lookup (g : graph) (nm : string) :
  nm ∉ map name g ->
  addPageToGraph g (newPage nm) = (g ++ [Page nm [] 0], 0, []) /\
  findNode (g ++ [Page nm [] 0]) nm = Some (length g) /\
  findPage (g ++ [Page nm [] 0]) nm = 0 /\
  forall other, other <> nm ->
    findNode (g ++ [Page nm [] 0]) other = findNode g other /\
    findPage (g ++ [Page nm [] 0]) other = findPage g other.
Proof.
  intros Hn. split; [by apply addPageToGraph_fresh|]. split; [|split].
  - unfold findNode. replace (length g) with (0 + length g)%nat by lia.
    by apply findNodeFrom_split.
  - apply findPage_found. rewrite map_app. apply elem_of_app. right.
    simpl. apply list_elem_of_here.
  - intros other Hne. split.
    + unfold findNode. rewrite findNodeFrom_app.
      destruct (findNodeFrom other g 0); [done|]. simpl.
      by rewrite strcmp_neq by congruence.
    + rewrite findPage_app. simpl. rewrite (strcmp_neq nm other) by congruence.
      destruct (findPage_cases g other) as [-> | ->]; done.
Qed.

Lemma new_page_lookup_witness :
  ("W" ∉ map name chainStore) /\
  addPageToGraph chainStore (newPage "W") = (chainStore ++ [Page "W" [] 0], 0, []) /\
  findNode (chainStore ++ [Page "W" [] 0]) "W" = Some (length chainStore) /\
  findPage (chainStore ++ [Page "W" [] 0]) "W" = 0 /\
  forall other, other <> "W" ->
    findNode (chainStore ++ [Page "W" [] 0]) other = findNode chainStore other /\
    findPage (chainStore ++ [Page "W" [] 0]) other = findPage chainStore other.
Proof.
  assert (H : "W" ∉ map name chainStore) by (apply findPage_absent; reflexivity).
  split; [exact H|]. exact (new_page_lookup chainStore "W" H).
Defined.

(** ** The [@addPages] line *)

Lemma freshNames_length (pageLinks : list string) :
  forall known, (length (freshNames known pageLinks) <= length pageLinks)%nat.
Proof.
  induction pageLinks as [|w rest IH]; intros known; simpl; [lia|].
  destruct (bool_decide (w ∈ known)); simpl.
  - specialize (IH known). lia.
  - specialize (IH (known ++ [w])). lia.
Qed.

Lemma freshNames_known (pageLinks : list string) :
  forall known, Forall (fun w => w ∈ known) pageLinks ->
    freshNames known pageLinks = [].
Proof.
  induction pageLinks as [|w rest IH]; intros known Hall; simpl; [done|].
  inversion Hall as [|? ? Hw Hrest]; subst.
  rewrite bool_decide_eq_true_2 by done. by apply IH.
Qed.

Lemma freshNames_covers (pageLinks : list string) :
  forall known, Forall (fun w => w ∈ known ++ freshNames known pageLinks) pageLinks.
Proof.
  induction pageLinks as [|w rest IH]; intros known; simpl; [constructor|].
  destruct (decide (w ∈ known)) as [Hin|Hn].
  - rewrite bool_decide_eq_true_2 by done. constructor; [|apply IH].
    apply elem_of_app. by left.
  - rewrite bool_decide_eq_false_2 by done. constructor.
    + apply elem_of_app. right. apply list_elem_of_here.
    + specialize (IH (known ++ [w])). rewrite <- app_assoc in IH. exact IH.
Qed.

Lemma addPagesLoop_fresh (pageLinks : list string) :
  forall g seen,
    (addPagesLoop g seen pageLinks).1.1 =
      g ++ map newPage (freshNames (map name g) pageLinks) /\
    exists n,
      (addPagesLoop g seen pageLinks).2 = replicate n DuplicatePage /\
      (n + length (freshNames (map name g) pageLinks) = length pageLinks)%nat.
Proof.
  induction pageLinks as [|w rest IH]; intros g seen; simpl.
  - split; [by rewrite app_nil_r|]. by exists 0%nat.
  - destruct (decide (w ∈ map name g)) as [Hin|Hn].
    + rewrite bool_decide_eq_true_2 by done.
      rewrite (addPageToGraph_duplicate g (newPage w)) by done.
      destruct (IH g (Int.add seen 1)) as (Hg & n & Hd & Hlen).
      destruct (addPagesLoop g (Int.add seen 1) rest) as [[g2 seen2] ds].
      simpl in *. split; [done|]. exists (S n). split; [by rewrite Hd|lia].
    + rewrite bool_decide_eq_false_2 by done.
      rewrite (addPageToGraph_fresh g (newPage w)) by done.
      destruct (IH (g ++ [newPage w]) (Int.add seen 0)) as (Hg & n & Hd & Hlen).
      destruct (addPagesLoop (g ++ [newPage w]) (Int.add seen 0) rest)
        as [[g2 seen2] ds].
      simpl in *. rewrite map_app in Hg, Hlen. simpl in Hg, Hlen.
      split; [by rewrite Hg, <- app_assoc|]. exists n. split; [done|lia].
Qed.

(** X3.  An [@addPages] line leaves the pages of the store as they are and
    puts after them one page, without links, for each name on the line that
    is new, in the order of the line and once however often the name is
    repeated; it prints nothing and reports one duplicate for every other
    argument.  While the counter stays in range it goes up by the number of
    duplicates. *)
Theorem addPages_line (st : state) (pageLinks : list string) :
  exists seen n,
    execWords st ("@addPages" :: pageLinks) =
      Some (State (store st ++ map newPage (freshNames (map name (store st)) pageLinks))
                  seen,
            Effect [] (replicate n DuplicatePage)) /\
    (n + length (freshNames (map name (store st)) pageLinks) = length pageLinks)%nat /\
    (0 <= errSeen st ->
     errSeen st + Z.of_nat (length pageLinks) <= Int.max_signed ->
     seen = errSeen st + Z.of_nat n).
Proof.
  rewrite execWords_addPages.
  destruct (addPagesLoop_fresh pageLinks (store st) (errSeen st)) as (Hg & n & Hd & Hlen).
  pose proof (addPagesLoop_count pageLinks (store st) (errSeen st)) as Hcount.
  destruct (addPagesLoop (store st) (errSeen st) pageLinks) as [[g seen] ds].
  simpl in *. subst g ds. exists seen, n. split; [done|]. split; [done|].
  intros H0 Hmax. destruct (Hcount H0 Hmax) as [-> _]. by rewrite length_replicate.
Qed.

Example addPages_repeated_name :
  execLine (State chainStore 0) ("@addPages W X W V" +:+ nl) =
  Some (State (chainStore ++ [Page "W" [] 0; Page "V" [] 0]) 2,
        Effect [] [DuplicatePage; DuplicatePage]).
Proof. reflexivity. Qed.

(** X4.  After an [@addPages] line every name on it is the name of a page;
    the same line run again leaves the store as the first run left it and
    reports every one of its arguments as a duplicate. *)
Theorem addPages_line_again (st : state) (pageLinks : list string) :
  exists st1 eff1 seen2,
    execWords st ("@addPages" :: pageLinks) = Some (st1, eff1) /\
    Forall (fun w => findPage (store st1) w = 0) pageLinks /\
    execWords st1 ("@addPages" :: pageLinks) =
      Some (State (store st1) seen2,
            Effect [] (replicate (length pageLinks) DuplicatePage)).
Proof.
  pose proof (execWords_addPages st pageLinks) as Hrun1.
  destruct (addPagesLoop_fresh pageLinks (store st) (errSeen st)) as (Hg & _).
  destruct (addPagesLoop (store st) (errSeen st) pageLinks) as [[g1 seen1] ds1].
  simpl in Hg.
  assert (Hall : Forall (fun w => w ∈ map name g1) pageLinks).
  { subst g1. rewrite map_app, map_map. simpl. rewrite map_id.
    apply freshNames_covers. }
  pose proof (execWords_addPages (State g1 seen1) pageLinks) as Hrun2.
  cbn [store errSeen] in Hrun2.
  destruct (addPagesLoop_fresh pageLinks g1 seen1) as (Hg2 & n & Hd & Hlen).
  rewrite (freshNames_known _ _ Hall) in Hg2, Hlen.
  destruct (addPagesLoop g1 seen1 pageLinks) as [[g2 seen2] ds2].
  simpl in Hg2, Hd, Hlen. rewrite app_nil_r in Hg2. subst g2 ds2.
  replace n with (length pageLinks) in Hrun2 by lia.
  exists (State g1 seen1), (Effect [] ds1), seen2.
  split; [exact Hrun1|]. split; [|exact Hrun2]. simpl.
  eapply Forall_impl; [exact Hall|]. intros w Hw. by apply findPage_found.
Qed.

(** ** The [@addLinks] line *)

Lemma findNodeFrom_names (nm : string) (g : graph) :
  forall g' k, map name g = map name g' ->
    findNodeFrom nm g k = findNodeFrom nm g' k.
Proof.
  induction g as [|cur g IH]; intros [|cur' g'] k Hn; simpl in *; try done.
  injection Hn as Hc Hrest. rewrite Hc. destruct (_ =? 0); [done|by apply IH].
Qed.

Lemma findNode_names (g g' : graph) (nm : string) :
  map name g = map name g' -> findNode g nm = findNode g' nm.
Proof. intros Hn. by apply findNodeFrom_names. Qed.

Lemma scanLast_findNode (g : graph) (nm : string) :
  namesUnique g -> scanLast nm g 0 None = findNode g nm.
Proof.
  intros Hu. destruct (findNode g nm) as [i|] eqn:E.
  - destruct (findNode_Some _ _ _ E) as (p & Hp & Hn & _). subst nm.
    by apply scanLast_position.
  - apply scanLast_absent. apply findPage_absent. by apply findNode_None.
Qed.

Lemma extendLinks_nil (g : graph) (i : nat) : alter (extendLinks []) i g = g.
Proof.
  apply list_eq. intros k. rewrite list_lookup_alter.
  destruct (decide (i = k)) as [->|_]; [|done].
  destruct (g !! k) as [[n e v]|]; [|done]. simpl. unfold extendLinks. simpl.
  by rewrite app_nil_r.
Qed.

Lemma addLinksLoop_absent (srcPage : string) (links : list string) :
  forall g seen, srcPage ∉ map name g ->
    (addLinksLoop g seen srcPage links).1.1 = g /\
    (addLinksLoop g seen srcPage links).2 = replicate (length links) LinkNotFound.
Proof.
  induction links as [|w rest IH]; intros g seen Hn; simpl; [done|].
  rewrite addLinkToPage_missing by (by left).
  destruct (IH g (Int.add seen 1) Hn) as [Hg Hd].
  destruct (addLinksLoop g (Int.add seen 1) srcPage rest) as [[g2 seen2] ds].
  simpl in *. by rewrite Hg, Hd.
Qed.

Lemma addLinksLoop_present (srcPage : string) (i : nat) (links : list string) :
  forall g seen,
    namesUnique g -> findNode g srcPage = Some i ->
    (addLinksLoop g seen srcPage links).1.1 =
      alter (extendLinks (omap (findNode g) links)) i g /\
    (addLinksLoop g seen srcPage links).2 =
      replicate (length (filter (fun w => w ∉ map name g) links)) LinkNotFound.
Proof.
  induction links as [|w rest IH]; intros g seen Hu Hsrc; simpl.
  { split; [by rewrite extendLinks_nil|done]. }
  unfold addLinkToPage. rewrite !scanLast_findNode by done. rewrite Hsrc.
  destruct (findNode g w) as [j|] eqn:Hw.
  - set (g1 := alter (appendLink j) i g).
    assert (Hnames : map name g1 = map name g) by (by apply alter_names).
    destruct (IH g1 (Int.add seen 0)) as [Hg Hd].
    { unfold namesUnique. by rewrite Hnames. }
    { by rewrite (findNode_names g1 g). }
    destruct (addLinksLoop g1 (Int.add seen 0) srcPage rest) as [[g2 seen2] ds].
    assert (Hom : omap (findNode g1) rest = omap (findNode g) rest).
    { apply list_omap_ext. apply Forall2_same_length_lookup. split; [done|].
      intros k x y Hx Hy. rewrite Hx in Hy. injection Hy as <-.
      by apply findNode_names. }
    simpl in *. split.
    + rewrite Hg, Hom. unfold g1. rewrite list_alter_alter_eq.
      apply list_alter_ext; [|done]. intros [n e v] _. unfold extendLinks. simpl.
      by rewrite <- app_assoc.
    + rewrite Hd, Hnames. rewrite filter_cons_False; [done|].
      intros Habs. apply Habs. destruct (findNode_Some _ _ _ Hw) as (q & Hq & Hnq & _).
      subst w. apply list_elem_of_In, in_map, list_elem_of_In.
      by eapply list_elem_of_lookup_2.
  - destruct (IH g (Int.add seen 1) Hu Hsrc) as [Hg Hd].
    destruct (addLinksLoop g (Int.add seen 1) srcPage rest) as [[g2 seen2] ds].
    simpl in *. split; [done|]. rewrite Hd. rewrite filter_cons_True; [done|].
    apply findPage_absent. by apply findNode_None.
Qed.

(** X5.  An [@addLinks] line with a source and at least one destination,
    on a store with unique names: when the source names no page, the store
    is left as it is and every destination is reported; when it names the
    page at [i], that page gets after its links one link for each
    destination that names a page, in the order of the line, the rest of the
    store is as it was, and the destinations that name no page are reported,
    one by one. *)
Theorem addLinks_line (st : state) (srcPage link : string) (links : list string) :
  namesUnique (store st) ->
  (srcPage ∉ map name (store st) ->
   exists seen,
     execWords st ("@addLinks" :: srcPage :: link :: links) =
       Some (State (store st) seen,
             Effect [] (replicate (S (length links)) LinkNotFound))) /\
  (forall i, findNode (store st) srcPage = Some i ->
   exists seen,
     execWords st ("@addLinks" :: srcPage :: link :: links) =
       Some (State (alter (extendLinks (omap (findNode (store st)) (link :: links)))
                          i (store st)) seen,
             Effect []
               (replicate
                  (length (filter (fun w => w ∉ map name (store st)) (link :: links)))
                  LinkNotFound))).
Proof.
  intros Hu. rewrite execWords_addLinks. split.
  - intros Hn.
    destruct (addLinksLoop_absent srcPage (link :: links) (store st) (errSeen st) Hn)
      as [Hg Hd].
    destruct (addLinksLoop _ _ _ _) as [[g seen] ds]. simpl in Hg, Hd. subst g ds.
    by exists seen.
  - intros i Hsrc.
    destruct (addLinksLoop_present srcPage i (link :: links) (store st) (errSeen st)
                Hu Hsrc) as [Hg Hd].
    destruct (addLinksLoop _ _ _ _) as [[g seen] ds]. simpl in Hg, Hd. subst g ds.
    by exists seen.
Qed.

Lemma chainStore_unique : namesUnique chainStore.
Proof. exact (wf_names _ chainStore_wellFormed). Defined.

Lemma addLinks_line_witness :
  namesUnique chainStore /\
  ("Q" ∉ map name chainStore) /\
  findNode chainStore "Z" = Some 2%nat /\
  (exists seen,
     execWords (State chainStore 0) ["@addLinks"; "Q"; "X"; "Y"] =
       Some (State chainStore seen,
             Effect [] (replicate 2 LinkNotFound))) /\
  (exists seen,
     execWords (State chainStore 0) ["@addLinks"; "Z"; "X"; "Q"; "Z"] =
       Some (State (alter (extendLinks (omap (findNode chainStore) ["X"; "Q"; "Z"]))
                          2%nat chainStore) seen,
             Effect []
               (replicate
                  (length (filter (fun w => w ∉ map name chainStore) ["X"; "Q"; "Z"]))
                  LinkNotFound))).
Proof.
  assert (HQ : "Q" ∉ map name chainStore) by (apply findPage_absent; reflexivity).
  split; [exact chainStore_unique|]. split; [exact HQ|]. split; [reflexivity|].
  split.
  - exact (proj1 (addLinks_line (State chainStore 0) "Q" "X" ["Y"] chainStore_unique) HQ).
  - apply (proj2 (addLinks_line (State chainStore 0) "Z" "X" ["Q"; "Z"]
                    chainStore_unique) 2%nat).
    reflexivity.
Defined.

Example addLinks_mixed_destinations :
  execLine (State chainStore 0) ("@addLinks Z X Q Z" +:+ nl) =
  Some (State [Page "X" [1%nat] 0; Page "Y" [2%nat] 0; Page "Z" [0%nat; 2%nat] 0] 1,
        Effect [] [LinkNotFound]).
Proof. reflexivity. Qed.

(** ** Queries and links *)

(** X6.  No line removes, moves or renames a page, or takes a link away:
    after any lines, run from a well-formed store, every page of the store
    is at its place under its name, with the links it had and possibly more
    after them; and the lines all return. *)
Theorem lines_never_remove (st : state) (lines : list string) :
  wellFormed (store st) ->
  exists st' effs,
    runLines st lines = Some (st', effs) /\
    wellFormed (store st') /\
    forall i p, store st !! i = Some p ->
      exists p' more, store st' !! i = Some p' /\ name p' = name p /\
        edges p' = edges p ++ more.
Proof.
  intros Hwf. unfold runLines.
  destruct (runWords_total (map lineWords lines) st Hwf) as (st' & effs & Hrun & _).
  destruct (runWords_grows _ _ _ _ Hwf Hrun) as [Hg Hwf'].
  by exists st', effs.
Qed.

Lemma lines_never_remove_witness :
  wellFormed chainStore /\
  exists st' effs,
    runLines (State chainStore 0) mixedInput = Some (st', effs) /\
    wellFormed (store st') /\
    forall i p, chainStore !! i = Some p ->
      exists p' more, store st' !! i = Some p' /\ name p' = name p /\
        edges p' = edges p ++ more.
Proof.
  split; [exact chainStore_wellFormed|].
  exact (lines_never_remove (State chainStore 0) mixedInput chainStore_wellFormed).
Defined.

Lemma printConnection_found (g g' : graph) (one two : string) (r : Z) :
  printConnection g one two = Some (r, g') ->
  exists i j, findNode g one = Some i /\ findNode g two = Some j.
Proof.
  unfold printConnection. destruct (findNode g one) as [i|]; [|done].
  destruct (findNode g two) as [j|]; [|done]. intros _. by exists i, j.
Qed.

(** X7.  What [@isConnected] prints is the truth about the links: on a
    well-formed store, for two names of pages, the line prints 1 exactly
    when a chain of links leads from the first page to the second (the chain
    of no link from a page to itself included), and 0 exactly when none
    does; either way the state is left as it was. *)
Theorem isConnected_follows_links (st : state) (one two : string) (i j : nat) :
  wellFormed (store st) ->
  findNode (store st) one = Some i -> findNode (store st) two = Some j ->
  (execWords st ["@isConnected"; one; two] = Some (st, Effect [1] []) <->
   linked (store st) i j) /\
  (execWords st ["@isConnected"; one; two] = Some (st, Effect [0] []) <->
   ~ linked (store st) i j).
Proof.
  intros Hwf Hi Hj. destruct st as [g seen]. cbn [store] in *.
  destruct (printConnection_linked g one two i j Hwf Hi Hj) as [H1 H0].
  destruct (findNode_Some _ _ _ Hi) as (p & Hp & Hnp & _).
  destruct (findNode_Some _ _ _ Hj) as (q & Hq & Hnq & _).
  assert (Ha : findPage g one = 0) by (subst one; by eapply findPage_position).
  assert (Hb : findPage g two = 0) by (subst two; by eapply findPage_position).
  destruct (printConnection_wellFormed g one two Hwf Ha Hb) as (r & Hprint & Hr).
  rewrite (execWords_query (State g seen) one two r g Ha Hb Hprint). cbn [errSeen].
  rewrite Hprint in H1, H0. split.
  - rewrite <- H1. split; [intros [= ->]; done|intros [= ->]; done].
  - rewrite <- H0. split; [intros [= ->]; done|intros [= ->]; done].
Qed.

Lemma isConnected_follows_links_witness :
  wellFormed chainStore /\
  findNode chainStore "X" = Some 0%nat /\ findNode chainStore "Z" = Some 2%nat /\
  linked chainStore 0 2 /\ ~ linked chainStore 2 0.
Proof.
  split; [exact chainStore_wellFormed|]. split; [reflexivity|]. split; [reflexivity|].
  split.
  - apply (proj1 (isConnected_follows_links (State chainStore 0) "X" "Z" 0 2
                    chainStore_wellFormed eq_refl eq_refl)).
    reflexivity.
  - apply (proj2 (isConnected_follows_links (State chainStore 0) "Z" "X" 2 0
                    chainStore_wellFormed eq_refl eq_refl)).
    reflexivity.
Defined.

(** X8.  Answers compose: on a well-formed store, when the query from
    [one] to [two] and the query from [two] to [three] both print 1, so does
    the query from [one] to [three]. *)
Theorem answers_compose (g : graph) (one two three : string) :
  wellFormed g ->
  printConnection g one two = Some (1, g) ->
  printConnection g two three = Some (1, g) ->
  printConnection g one three = Some (1, g).
Proof.
  intros Hwf H12 H23.
  destruct (printConnection_found _ _ _ _ _ H12) as (i & j & Hi & Hj).
  destruct (printConnection_found _ _ _ _ _ H23) as (j' & k & Hj' & Hk).
  rewrite Hj in Hj'. injection Hj' as <-.
  apply (printConnection_linked g one three i k Hwf Hi Hk).
  eapply linked_trans.
  - by apply (printConnection_linked g one two i j Hwf Hi Hj).
  - by apply (printConnection_linked g two three j k Hwf Hj Hk).
Qed.

Lemma answers_compose_witness :
  wellFormed chainStore /\
  printConnection chainStore "X" "Y" = Some (1, chainStore) /\
  printConnection chainStore "Y" "Z" = Some (1, chainStore) /\
  printConnection chainStore "X" "Z" = Some (1, chainStore).
Proof.
  split; [exact chainStore_wellFormed|]. split; [reflexivity|]. split; [reflexivity|].
  apply (answers_compose chainStore "X" "Y" "Z" chainStore_wellFormed); reflexivity.
Defined.

(** X9.  A positive answer is never lost: when a query prints 1 on a
    well-formed store, it prints 1 again after any further lines. *)
Theorem answer_one_is_kept (st : state) (lines : list string) (one two : string) :
  wellFormed (store st) ->
  printConnection (store st) one two = Some (1, store st) ->
  exists st' effs,
    runLines st lines = Some (st', effs) /\
    printConnection (store st') one two = Some (1, store st').
Proof.
  intros Hwf Hprint. unfold runLines.
  destruct (runWords_total (map lineWords lines) st Hwf) as (st' & effs & Hrun & _).
  destruct (runWords_grows _ _ _ _ Hwf Hrun) as [Hg Hwf'].
  exists st', effs. split; [done|].
  destruct (printConnection_found _ _ _ _ _ Hprint) as (i & j & Hi & Hj).
  apply (printConnection_linked (store st') one two i j Hwf').
  - by eapply findNode_grows; [exact Hg|apply Hwf'|].
  - by eapply findNode_grows; [exact Hg|apply Hwf'|].
  - eapply linked_grows; [exact Hg|].
    by apply (printConnection_linked (store st) one two i j Hwf Hi Hj).
Qed.

Lemma answer_one_is_kept_witness :
  wellFormed chainStore /\
  printConnection chainStore "X" "Z" = Some (1, chainStore) /\
  exists st' effs,
    runLines (State chainStore 0) mixedInput = Some (st', effs) /\
    printConnection (store st') "X" "Z" = Some (1, store st').
Proof.
  split; [exact chainStore_wellFormed|]. split; [reflexivity|].
  apply (answer_one_is_kept (State chainStore 0) mixedInput "X" "Z"
           chainStore_wellFormed).
  reflexivity.
Defined.

(** X10.  A link can be followed as soon as it is made: on a well-formed
    store, once [addLinkToPage] has linked two names of pages, the query
    from the first to the second prints 1, whatever the links were
    before. *)
Theorem new_link_is_followed (g : graph) (srcPage link : string) :
  wellFormed g -> srcPage ∈ map name g -> link ∈ map name g ->
  exists g',
    addLinkToPage g srcPage link = (g', 0, []) /\
    printConnection g' srcPage link = Some (1, g').
Proof.
  intros Hwf Hs Hd.
  destruct (scanLast_found g srcPage Hs) as (i & p & Hi & Hp & Hnp).
  destruct (scanLast_found g link Hd) as (j & q & Hj & Hq & Hnq).
  pose proof (addLinkToPage_wellFormed g srcPage link Hwf) as Hwf'.
  unfold addLinkToPage in *. rewrite Hi, Hj in *. cbn [fst] in Hwf'.
  set (g' := alter (appendLink j) i g) in *. exists g'. split; [done|].
  assert (Hp' : g' !! i = Some (appendLink j p)).
  { unfold g'. by rewrite list_lookup_alter_eq, Hp. }
  assert (Hq' : is_Some (g' !! j)).
  { apply lookup_lt_is_Some_2. unfold g'. rewrite length_alter. by eapply lookup_lt_Some. }
  destruct Hq' as [q' Hq'].
  assert (Hnames : map name g' = map name g) by (by apply alter_names).
  apply (printConnection_linked g' srcPage link i j Hwf').
  - rewrite (findNode_names g' g) by done. subst srcPage.
    by apply findNode_position; [apply Hwf|].
  - rewrite (findNode_names g' g) by done. subst link.
    by apply findNode_position; [apply Hwf|].
  - eapply linked_step; [exact Hp'| |by eapply linked_here].
    simpl. apply elem_of_app. right. apply list_elem_of_here.
Qed.

Lemma chainStore_has_Z : "Z" ∈ map name chainStore.
Proof. apply findPage_found. reflexivity. Defined.

Lemma new_link_is_followed_witness :
  wellFormed chainStore /\
  ("Z" ∈ map name chainStore) /\ ("Y" ∈ map name chainStore) /\
  exists g',
    addLinkToPage chainStore "Z" "Y" = (g', 0, []) /\
    printConnection g' "Z" "Y" = Some (1, g').
Proof.
  split; [exact chainStore_wellFormed|]. split; [exact chainStore_has_Z|].
  split; [exact chainStore_has_Y|].
  exact (new_link_is_followed chainStore "Z" "Y" chainStore_wellFormed
           chainStore_has_Z chainStore_has_Y).
Defined.

(** ** Splitting lines *)

Lemma append_cons (c : ascii) (s t : string) :
  String c s +:+ t = String c (s +:+ t).
Proof. reflexivity. Qed.

Lemma append_nil_l (t : string) : "" +:+ t = t.
Proof. reflexivity. Qed.

Lemma append_nil_r (s : string) : s +:+ "" = s.
Proof.
  induction s as [|c s IH]; [done|]. by rewrite append_cons, IH.
Qed.

Lemma append_assoc (s t u : string) : (s +:+ t) +:+ u = s +:+ (t +:+ u).
Proof.
  induction s as [|c s IH]; [done|]. by rewrite !append_cons, IH.
Qed.

Lemma stringAll_append (P : ascii -> bool) (s t : string) :
  stringAll P (s +:+ t) = stringAll P s && stringAll P t.
Proof.
  induction s as [|c s IH]; [done|]. rewrite append_cons. simpl.
  by rewrite IH, andb_assoc.
Qed.

Lemma removeAllWhitespace_spaceFree (s : string) :
  spaceFree (removeAllWhitespace s) = true.
Proof.
  unfold spaceFree. induction s as [|c s IH]; simpl; [done|].
  destruct (isspace c) eqn:E; simpl; [done|]. by rewrite E, IH.
Qed.

Lemma removeAllWhitespace_fixed (s : string) :
  spaceFree s = true <-> removeAllWhitespace s = s.
Proof.
  split.
  - unfold spaceFree. induction s as [|c s IH]; simpl; [done|].
    intros [Hc Hs]%andb_true_iff. apply negb_true_iff in Hc. by rewrite Hc, IH.
  - intros <-. apply removeAllWhitespace_spaceFree.
Qed.

Lemma removeAllWhitespace_append (s t : string) :
  removeAllWhitespace (s +:+ t) = removeAllWhitespace s +:+ removeAllWhitespace t.
Proof.
  induction s as [|c s IH]; [done|]. rewrite append_cons. simpl.
  destruct (isspace c); by rewrite IH.
Qed.



Example removeAllWhitespace_mixed :
  removeAllWhitespace (" a" +:+ String tab "b " +:+ nl +:+ "c") = "abc".
Proof. reflexivity. Qed.

(** X12.  No word that [main] takes from a line holds a white-space
    character: neither the verb it compares nor any page name it passes
    on. *)
Theorem lineWords_without_space (line : string) :
  Forall (fun w => spaceFree w = true) (lineWords line).
Proof.
  unfold lineWords, wordsOf.
  destruct (strtok _ (cText line)) as [[word after]|]; [|constructor].
  constructor; [apply removeAllWhitespace_spaceFree|].
  apply Forall_forall. intros w Hw. apply list_elem_of_In, in_map_iff in Hw.
  destruct Hw as (w0 & <- & _). apply removeAllWhitespace_spaceFree.
Qed.

Lemma isspace_delims (c : ascii) :
  isspace c = false ->
  isDelim [space; tab; newline] c = false /\ isDelim [space] c = false.
Proof.
  unfold isspace, isDelim. simpl.
  destruct (Ascii.eqb c space), (Ascii.eqb c tab), (Ascii.eqb c newline); done.
Qed.

Lemma spaceFree_avoids (w : string) :
  spaceFree w = true ->
  avoids [space; tab; newline] w = true /\ avoids [space] w = true.
Proof.
  unfold spaceFree, avoids. induction w as [|c w IH]; cbn [stringAll]; [done|].
  intros [Hc Hw]%andb_true_iff. apply negb_true_iff in Hc.
  destruct (isspace_delims c Hc) as [-> ->]. cbn [negb andb]. by apply IH.
Qed.

Lemma takeToken_word (delims : list ascii) (w : string) (c : ascii) (s : string) :
  avoids delims w = true -> isDelim delims c = true ->
  takeToken delims (w +:+ String c s) = (w, s).
Proof.
  intros Hw Hc. unfold avoids in Hw.
  induction w as [|a w IH]; [by rewrite append_nil_l; simpl; rewrite Hc|].
  simpl in Hw. apply andb_true_iff in Hw. destruct Hw as [Ha Hw].
  apply negb_true_iff in Ha. rewrite append_cons. simpl. by rewrite Ha, IH.
Qed.

Lemma takeToken_end (delims : list ascii) (w : string) :
  avoids delims w = true -> takeToken delims w = (w, "").
Proof.
  unfold avoids. induction w as [|a w IH]; simpl; [done|].
  intros [Ha Hw]%andb_true_iff. apply negb_true_iff in Ha. by rewrite Ha, IH.
Qed.

Lemma skipDelims_word (delims : list ascii) (w s : string) :
  w <> "" -> avoids delims w = true -> skipDelims delims (w +:+ s) = w +:+ s.
Proof.
  unfold avoids. destruct w as [|a w]; [done|]. intros _. simpl.
  intros [Ha _]%andb_true_iff. apply negb_true_iff in Ha.
  rewrite append_cons. simpl. by rewrite Ha.
Qed.

Lemma strtok_word (delims : list ascii) (w : string) (c : ascii) (s : string) :
  w <> "" -> avoids delims w = true -> isDelim delims c = true ->
  strtok delims (w +:+ String c s) = Some (w, s).
Proof.
  intros Hne Hw Hc. unfold strtok. rewrite skipDelims_word by done.
  destruct w as [|a w]; [done|]. rewrite append_cons.
  rewrite <- (append_cons a w (String c s)). by rewrite takeToken_word.
Qed.

Lemma strtok_end (delims : list ascii) (w : string) :
  w <> "" -> avoids delims w = true -> strtok delims w = Some (w, "").
Proof.
  intros Hne Hw. unfold strtok.
  rewrite <- (append_nil_r w) at 1. rewrite skipDelims_word by done.
  rewrite append_nil_r. destruct w as [|a w]; [done|]. by rewrite takeToken_end.
Qed.

Lemma skipDelims_lead (delims : list ascii) (lead s : string) :
  stringAll (isDelim delims) lead = true ->
  skipDelims delims (lead +:+ s) = skipDelims delims s.
Proof.
  induction lead as [|c lead IH]; [done|]. cbn [stringAll].
  intros [Hc Hl]%andb_true_iff. rewrite append_cons. simpl. rewrite Hc. by apply IH.
Qed.

Lemma skipDelims_blank (delims : list ascii) (s : string) :
  stringAll (isDelim delims) s = true -> skipDelims delims s = "".
Proof.
  induction s as [|c s IH]; simpl; [done|].
  intros [Hc Hs]%andb_true_iff. rewrite Hc. by apply IH.
Qed.

Lemma strtokAll_word (delims : list ascii) (w : string) :
  avoids delims w = true ->
  forall s acc, strtokAll delims (w +:+ s) acc = strtokAll delims s (acc +:+ w).
Proof.
  unfold avoids. induction w as [|a w IH]; intros Hw s acc.
  - by rewrite append_nil_l, append_nil_r.
  - simpl in Hw. apply andb_true_iff in Hw. destruct Hw as [Ha Hw].
    apply negb_true_iff in Ha. rewrite append_cons. simpl. rewrite Ha.
    rewrite (IH Hw). by rewrite append_assoc.
Qed.

Lemma strtokAll_delim (delims : list ascii) (c : ascii) (s acc : string) :
  isDelim delims c = true -> acc <> "" ->
  strtokAll delims (String c s) acc = acc :: strtokAll delims s "".
Proof. intros Hc Hacc. simpl. rewrite Hc. by destruct acc. Qed.

Lemma strtokAll_end (delims : list ascii) (acc : string) :
  acc <> "" -> strtokAll delims "" acc = [acc].
Proof. intros Hacc. simpl. by destruct acc. Qed.

Lemma chopNewline_cons (c : ascii) (d : ascii) (s : string) :
  chopNewline (String c (String d s)) = String c (chopNewline (String d s)).
Proof. reflexivity. Qed.

Lemma chopNewline_nl (w : string) : chopNewline (w +:+ nl) = w.
Proof.
  induction w as [|c w IH]; [reflexivity|].
  rewrite append_cons. destruct w as [|d w].
  - reflexivity.
  - rewrite append_cons in *. by rewrite chopNewline_cons, IH.
Qed.

Lemma chopNewline_spaceFree (w : string) : spaceFree w = true -> chopNewline w = w.
Proof.
  unfold spaceFree. induction w as [|c w IH]; [done|]. simpl stringAll.
  intros [Hc Hw]%andb_true_iff. destruct w as [|d w].
  - simpl. destruct (Ascii.eqb c newline) eqn:E; [|done].
    apply Ascii.eqb_eq in E. subst c. done.
  - by rewrite chopNewline_cons, IH.
Qed.

Lemma cleanWord_plain (w : string) : spaceFree w = true -> cleanWord w = w.
Proof.
  intros Hw. unfold cleanWord. rewrite chopNewline_spaceFree by done.
  by apply removeAllWhitespace_fixed.
Qed.

Lemma cleanWord_nl (w : string) : spaceFree w = true -> cleanWord (w +:+ nl) = w.
Proof.
  intros Hw. unfold cleanWord. rewrite chopNewline_nl.
  by apply removeAllWhitespace_fixed.
Qed.

Lemma map_cleanWord_plain (ws : list string) :
  Forall plainWord ws -> map cleanWord ws = ws.
Proof.
  induction 1 as [|w ws [_ [Hw _]] _ IH]; simpl; [done|].
  by rewrite cleanWord_plain, IH.
Qed.

Lemma joinWords_cons (w : string) (rest : list string) :
  rest <> [] -> joinWords (w :: rest) = w +:+ String space (joinWords rest).
Proof. by destruct rest. Qed.

Lemma plainWord_append (w : string) (s : string) : plainWord w -> w +:+ s <> "".
Proof. intros [Hne _]. by destruct w. Qed.

(** The words after the first are cut at the spaces; what follows the
    last of them, up to the next space, stays with it. *)
Lemma strtokAll_join (front : list string) (w s : string) :
  Forall plainWord front -> plainWord w ->
  strtokAll [space] (joinWords (front ++ [w]) +:+ s) "" =
  front ++ strtokAll [space] s w.
Proof.
  intros Hfront Hw. induction Hfront as [|a front Ha _ IH]; simpl app.
  - simpl joinWords. rewrite strtokAll_word; [done|].
    by apply spaceFree_avoids, Hw.
  - rewrite joinWords_cons by (by destruct front).
    rewrite append_assoc, append_cons, strtokAll_word
      by (by apply spaceFree_avoids, Ha).
    rewrite append_nil_l, strtokAll_delim; [by rewrite IH|done|apply Ha].
Qed.

Lemma strtok_lead (delims : list ascii) (lead s : string) :
  stringAll (isDelim delims) lead = true ->
  strtok delims (lead +:+ s) = strtok delims s.
Proof. intros Hl. unfold strtok. by rewrite skipDelims_lead. Qed.

Lemma wordsOf_lead (lead text : string) :
  blankLine lead = true -> wordsOf (lead +:+ text) = wordsOf text.
Proof. intros Hl. unfold wordsOf. by rewrite strtok_lead. Qed.

Lemma nulFree_append (a b : string) :
  nulFree (a +:+ b) = nulFree a && nulFree b.
Proof. apply stringAll_append. Qed.

Lemma nulFree_cons (c : ascii) (s : string) :
  nulFree (String c s) = negb (Ascii.eqb c nul) && nulFree s.
Proof. reflexivity. Qed.

Lemma cText_append (a b : string) :
  nulFree a = true -> cText (a +:+ b) = a +:+ cText b.
Proof.
  induction a as [|c a IH]; [done|]. rewrite nulFree_cons.
  intros [Hc Ha]%andb_true_iff. apply negb_true_iff in Hc.
  rewrite !append_cons. simpl. by rewrite Hc, IH.
Qed.

Lemma cText_nulFree (s : string) : nulFree s = true -> cText s = s.
Proof.
  intros Hs. rewrite <- (append_nil_r s) at 1.
  rewrite cText_append by done. simpl. apply append_nil_r.
Qed.

(** On a line without the character 0, [main] reads the whole line. *)
Lemma lineWords_nulFree (line : string) :
  nulFree line = true -> lineWords line = wordsOf line.
Proof. intros Hz. unfold lineWords. by rewrite cText_nulFree. Qed.

Lemma blankLine_nulFree (lead : string) : blankLine lead = true -> nulFree lead = true.
Proof.
  unfold blankLine, nulFree. induction lead as [|c lead IH]; [done|].
  cbn [stringAll]. intros [Hc Hl]%andb_true_iff. rewrite IH by done.
  rewrite andb_true_r. apply negb_true_iff. apply Ascii.eqb_neq. intros ->.
  discriminate.
Qed.

Lemma nulFree_joinWords (ws : list string) :
  Forall plainWord ws -> nulFree (joinWords ws) = true.
Proof.
  induction 1 as [|w ws (_ & _ & Hw) Hws IH]; [done|].
  destruct ws as [|w2 ws]; [done|].
  rewrite joinWords_cons by done. by rewrite nulFree_append, nulFree_cons, Hw, IH.
Qed.

Lemma avoids_nl : avoids [space] nl = true.
Proof. reflexivity. Qed.

Lemma strtokAll_last (w s : string) :
  plainWord w -> avoids [space] s = true ->
  strtokAll [space] s w = [w +:+ s].
Proof.
  intros Hw Hs. rewrite <- (append_nil_r s) at 1.
  rewrite strtokAll_word by done. apply strtokAll_end. by apply plainWord_append.
Qed.

Lemma wordsOf_first (v : string) (c : ascii) (s : string) :
  plainWord v -> isDelim [space; tab; newline] c = true ->
  wordsOf (v +:+ String c s) = v :: map cleanWord (strtokAll [space] s "").
Proof.
  intros [Hne [Hv _]] Hc. unfold wordsOf.
  rewrite strtok_word; [|done|by apply spaceFree_avoids|done].
  by rewrite cleanWord_plain.
Qed.

Lemma wordsOf_alone (v : string) : plainWord v -> wordsOf v = [v].
Proof.
  intros [Hne [Hv _]]. unfold wordsOf.
  rewrite strtok_end; [|done|by apply spaceFree_avoids].
  by rewrite cleanWord_plain.
Qed.

Lemma wordsOf_join (v : string) (front : list string) (w s : string) :
  Forall plainWord (v :: front) -> plainWord w ->
  wordsOf (joinWords (v :: front ++ [w]) +:+ s) =
  v :: front ++ map cleanWord (strtokAll [space] s w).
Proof.
  intros Hall Hw. inversion Hall as [|? ? Hv Hfront]; subst.
  rewrite joinWords_cons by (by destruct front).
  rewrite append_assoc, append_cons, wordsOf_first by done.
  rewrite strtokAll_join by done.
  by rewrite map_app, map_cleanWord_plain.
Qed.

(** X13.  A line written as a user would, the words separated by single
    spaces and each free of white space and of the character 0 (which ends
    the line for [strlen] and [strtok]), is taken apart into exactly those
    words, whether or not the line ends in a newline, and whatever spaces,
    tabs and newlines come before its first word. *)
Theorem lineWords_of_joined_words (lead v : string) (pageLinks : list string) :
  blankLine lead = true -> Forall plainWord (v :: pageLinks) ->
  lineWords (lead +:+ joinWords (v :: pageLinks) +:+ nl) = v :: pageLinks /\
  lineWords (lead +:+ joinWords (v :: pageLinks)) = v :: pageLinks.
Proof.
  intros Hlead Hall.
  pose proof (blankLine_nulFree lead Hlead) as Hzl.
  pose proof (nulFree_joinWords _ Hall) as Hzj.
  rewrite (lineWords_nulFree (lead +:+ joinWords (v :: pageLinks) +:+ nl))
    by (by rewrite !nulFree_append, Hzl, Hzj).
  rewrite (lineWords_nulFree (lead +:+ joinWords (v :: pageLinks)))
    by (by rewrite nulFree_append, Hzl, Hzj).
  rewrite (wordsOf_lead lead (joinWords (v :: pageLinks) +:+ nl) Hlead).
  rewrite (wordsOf_lead lead (joinWords (v :: pageLinks)) Hlead).
  destruct pageLinks as [|a rest] using rev_ind.
  - inversion Hall as [|? ? Hv _]; subst. simpl joinWords.
    split; [|by apply wordsOf_alone].
    unfold nl. by rewrite wordsOf_first.
  - clear IHrest. apply Forall_cons in Hall. destruct Hall as [Hv Hargs].
    apply Forall_app in Hargs. destruct Hargs as [Hrest Ha].
    apply Forall_inv in Ha.
    assert (Hvr : Forall plainWord (v :: rest)) by (by constructor).
    split.
    + rewrite wordsOf_join by done.
      rewrite strtokAll_last by (done || apply avoids_nl).
      simpl. by rewrite cleanWord_nl by apply Ha.
    + rewrite <- (append_nil_r (joinWords _)). rewrite wordsOf_join by done.
      rewrite strtokAll_end by apply Ha.
      simpl. by rewrite cleanWord_plain by apply Ha.
Qed.

Lemma plainWord_compute (w : string) :
  negb (String.eqb w "") && spaceFree w && nulFree w = true -> plainWord w.
Proof.
  intros [[Hne Hs]%andb_true_iff Hz]%andb_true_iff. split; [|done].
  intros ->. discriminate.
Qed.

Lemma lineWords_of_joined_words_witness :
  blankLine ("  " +:+ String tab "") = true /\
  Forall plainWord ["@addLinks"; "home"; "about"; "news"] /\
  lineWords (("  " +:+ String tab "") +:+
             joinWords ["@addLinks"; "home"; "about"; "news"] +:+ nl) =
    ["@addLinks"; "home"; "about"; "news"] /\
  lineWords (("  " +:+ String tab "") +:+
             joinWords ["@addLinks"; "home"; "about"; "news"]) =
    ["@addLinks"; "home"; "about"; "news"].
Proof.
  assert (Hl : blankLine ("  " +:+ String tab "") = true) by reflexivity.
  assert (Hw : Forall plainWord ["@addLinks"; "home"; "about"; "news"]).
  { repeat constructor; apply plainWord_compute; reflexivity. }
  split; [exact Hl|]. split; [exact Hw|].
  exact (lineWords_of_joined_words _ "@addLinks" ["home"; "about"; "news"] Hl Hw).
Defined.

(** X14.  A line of spaces, tabs and newlines only has no word: running it
    changes nothing, prints nothing and reports nothing.  In front of other
    text such characters are passed over. *)
Theorem blank_line_is_skipped (st : state) (line rest : string) :
  blankLine line = true ->
  lineWords line = [] /\
  execLine st line = Some (st, Effect [] []) /\
  lineWords (line +:+ rest) = lineWords rest.
Proof.
  intros Hb. pose proof (blankLine_nulFree line Hb) as Hz.
  assert (Hw : lineWords line = []).
  { rewrite lineWords_nulFree by done. unfold wordsOf, strtok.
    by rewrite skipDelims_blank. }
  split; [done|]. split.
  - unfold execLine. by rewrite Hw.
  - unfold lineWords. rewrite cText_append by done. by apply wordsOf_lead.
Qed.

Lemma blank_line_is_skipped_witness :
  blankLine (" " +:+ String tab nl) = true /\
  lineWords (" " +:+ String tab nl) = [] /\
  execLine (State chainStore 3) (" " +:+ String tab nl) =
    Some (State chainStore 3, Effect [] []) /\
  lineWords ((" " +:+ String tab nl) +:+ "@addPages A") = lineWords "@addPages A".
Proof.
  assert (Hb : blankLine (" " +:+ String tab nl) = true) by reflexivity.
  split; [exact Hb|].
  exact (blank_line_is_skipped (State chainStore 3) _ "@addPages A" Hb).
Defined.

(** X15.  On a line of words free of white space and of the character 0,
    a space between the last word and the newline makes one more word, the
    empty one.  So an [@isConnected] line with two such names and such a
    space has three arguments: it is refused for its argument count, and no
    query is run, whether or not the names are names of pages. *)
Theorem trailing_space_is_a_word (st : state) (v : string)
    (pageLinks : list string) (one two : string) :
  Forall plainWord (v :: pageLinks) -> plainWord one -> plainWord two ->
  lineWords (joinWords (v :: pageLinks) +:+ String space nl) =
    (v :: pageLinks) ++ [""] /\
  execLine st (joinWords ["@isConnected"; one; two] +:+ String space nl) =
    Some (State (store st) (Int.add (errSeen st) 1), Effect [] [BadArgumentCount]).
Proof.
  assert (Hgen : forall u args, Forall plainWord (u :: args) ->
    lineWords (joinWords (u :: args) +:+ String space nl) = (u :: args) ++ [""]).
  { intros u args Hall.
    rewrite lineWords_nulFree
      by (by rewrite nulFree_append, (nulFree_joinWords _ Hall)).
    destruct args as [|a rest] using rev_ind.
    - inversion Hall as [|? ? Hu _]; subst. simpl joinWords.
      by rewrite wordsOf_first.
    - clear IHrest. apply Forall_cons in Hall. destruct Hall as [Hu Hargs].
      apply Forall_app in Hargs. destruct Hargs as [Hrest Ha].
      apply Forall_inv in Ha.
      rewrite wordsOf_join by (done || by constructor).
      rewrite strtokAll_delim by (done || apply Ha).
      simpl. rewrite cleanWord_plain by apply Ha.
      by rewrite <- app_assoc. }
  intros Hall Hone Htwo. split; [by apply Hgen|].
  unfold execLine. rewrite Hgen.
  - cbn [app]. by rewrite execWords_isConnected.
  - constructor; [by apply plainWord_compute|].
    constructor; [done|]. constructor; [done|constructor].
Qed.

Lemma trailing_space_is_a_word_witness :
  Forall plainWord ["@addPages"; "home"] /\ plainWord "X" /\ plainWord "Z" /\
  lineWords (joinWords ["@addPages"; "home"] +:+ String space nl) =
    ["@addPages"; "home"] ++ [""] /\
  execLine (State chainStore 0)
    (joinWords ["@isConnected"; "X"; "Z"] +:+ String space nl) =
    Some (State chainStore (Int.add 0 1), Effect [] [BadArgumentCount]).
Proof.
  assert (Hw : Forall plainWord ["@addPages"; "home"]).
  { repeat constructor; apply plainWord_compute; reflexivity. }
  assert (HX : plainWord "X") by (apply plainWord_compute; reflexivity).
  assert (HZ : plainWord "Z") by (apply plainWord_compute; reflexivity).
  split; [exact Hw|]. split; [exact HX|]. split; [exact HZ|].
  exact (trailing_space_is_a_word (State chainStore 0) "@addPages" ["home"] "X" "Z"
           Hw HX HZ).
Defined.

Example trailing_space_makes_a_nameless_page :
  execLine initial ("@addPages home " +:+ nl) =
  Some (State [Page "home" [] 0; Page "" [] 0] 0, Effect [] []).
Proof. reflexivity. Qed.

(** X16.  Only the first word of a line ends at a tab; after it the words
    end at spaces alone.  On a line of words free of white space and of the
    character 0, a tab right after the verb separates it from the first
    name, but a tab between two names makes one name of them, the tab itself
    being dropped. *)
Theorem tab_joins_names (v : string) (front : list string) (a b : string) :
  Forall plainWord (v :: front) -> plainWord a -> plainWord b ->
  lineWords (joinWords (v :: front ++ [a]) +:+ String tab (b +:+ nl)) =
    v :: front ++ [a +:+ b] /\
  lineWords (v +:+ String tab (joinWords (front ++ [a]) +:+ nl)) =
    v :: front ++ [a].
Proof.
  intros Hall Ha Hb. inversion Hall as [|? ? Hv Hfront]; subst.
  assert (Hza : nulFree (joinWords (front ++ [a])) = true).
  { apply nulFree_joinWords. apply Forall_app. split; [done|by constructor]. }
  assert (Hzv : nulFree (joinWords (v :: front ++ [a])) = true).
  { apply nulFree_joinWords. constructor; [done|].
    apply Forall_app. split; [done|by constructor]. }
  assert (Hv0 : nulFree v = true) by apply Hv.
  assert (Hb0 : nulFree b = true) by apply Hb.
  rewrite (lineWords_nulFree (joinWords (v :: front ++ [a]) +:+ String tab (b +:+ nl)))
    by (by rewrite nulFree_append, nulFree_cons, nulFree_append, Hzv, Hb0).
  rewrite (lineWords_nulFree (v +:+ String tab (joinWords (front ++ [a]) +:+ nl)))
    by (by rewrite nulFree_append, nulFree_cons, nulFree_append, Hv0, Hza).
  split.
  - rewrite wordsOf_join by done.
    rewrite strtokAll_last; [|done|].
    + simpl. f_equal. f_equal. f_equal. unfold cleanWord.
      rewrite <- append_cons, <- append_assoc, chopNewline_nl.
      rewrite removeAllWhitespace_append. simpl removeAllWhitespace.
      change (isspace tab) with true. cbv iota.
      destruct Ha as [_ [Ha _]], Hb as [_ [Hb _]].
      apply removeAllWhitespace_fixed in Ha, Hb. by rewrite Ha, Hb.
    + destruct Hb as [_ [Hb _]]. apply spaceFree_avoids in Hb. destruct Hb as [_ Hb].
      change (avoids [space] (String tab (b +:+ nl)))
        with (negb (isDelim [space] tab) && avoids [space] (b +:+ nl)).
      unfold avoids in *. by rewrite stringAll_append, Hb.
  - rewrite wordsOf_first by done. rewrite strtokAll_join by done.
    rewrite strtokAll_last by (done || apply avoids_nl).
    rewrite map_app, map_cleanWord_plain by done. simpl.
    by rewrite cleanWord_nl by apply Ha.
Qed.

Lemma tab_joins_names_witness :
  Forall plainWord ["@addPages"; "home"] /\ plainWord "about" /\ plainWord "news" /\
  lineWords (joinWords (["@addPages"; "home"] ++ ["about"]) +:+
             String tab ("news" +:+ nl)) =
    "@addPages" :: ["home"] ++ ["about" +:+ "news"] /\
  lineWords ("@addPages" +:+ String tab (joinWords (["home"] ++ ["about"]) +:+ nl)) =
    "@addPages" :: ["home"] ++ ["about"].
Proof.
  assert (Hw : Forall plainWord ["@addPages"; "home"]).
  { repeat constructor; apply plainWord_compute; reflexivity. }
  assert (Ha : plainWord "about") by (apply plainWord_compute; reflexivity).
  assert (Hb : plainWord "news") by (apply plainWord_compute; reflexivity).
  split; [exact Hw|]. split; [exact Ha|]. split; [exact Hb|].
  exact (tab_joins_names "@addPages" ["home"] "about" "news" Hw Ha Hb).
Defined.

(** ** The program and its arguments *)

Lemma addPagesLoop_counter (pageLinks : list string) :
  forall g seen1 seen2,
    (addPagesLoop g seen1 pageLinks).1.1 = (addPagesLoop g seen2 pageLinks).1.1 /\
    (addPagesLoop g seen1 pageLinks).2 = (addPagesLoop g seen2 pageLinks).2.
Proof.
  induction pageLinks as [|w rest IH]; intros g seen1 seen2; simpl; [done|].
  destruct (addPageToGraph g (newPage w)) as [[g1 r] d].
  destruct (IH g1 (Int.add seen1 r) (Int.add seen2 r)) as [Hg Hd].
  destruct (addPagesLoop g1 (Int.add seen1 r) rest) as [[ga sa] da].
  destruct (addPagesLoop g1 (Int.add seen2 r) rest) as [[gb sb] db].
  simpl in *. by subst.
Qed.

Lemma addLinksLoop_counter (srcPage : string) (links : list string) :
  forall g seen1 seen2,
    (addLinksLoop g seen1 srcPage links).1.1 =
      (addLinksLoop g seen2 srcPage links).1.1 /\
    (addLinksLoop g seen1 srcPage links).2 = (addLinksLoop g seen2 srcPage links).2.
Proof.
  induction links as [|w rest IH]; intros g seen1 seen2; simpl; [done|].
  destruct (addLinkToPage g srcPage w) as [[g1 r] d].
  destruct (IH g1 (Int.add seen1 r) (Int.add seen2 r)) as [Hg Hd].
  destruct (addLinksLoop g1 (Int.add seen1 r) srcPage rest) as [[ga sa] da].
  destruct (addLinksLoop g1 (Int.add seen2 r) srcPage rest) as [[gb sb] db].
  simpl in *. by subst.
Qed.

(** What a line does to the store and what it writes do not depend on the
    count of errors so far. *)
Lemma execWords_counter (g : graph) (seen1 seen2 : Z) (words : list string)
    (st1 : state) (eff : effect) :
  execWords (State g seen1) words = Some (st1, eff) ->
  exists seen, execWords (State g seen2) words = Some (State (store st1) seen, eff).
Proof.
  destruct words as [|word pageLinks].
  { intros [= <- <-]. by exists seen2. }
  destruct (verb_cases word) as [-> | -> | -> | H1 H2 H3].
  - rewrite !execWords_addPages. cbn [store errSeen].
    destruct (addPagesLoop_counter pageLinks g seen1 seen2) as [Hg Hd].
    destruct (addPagesLoop g seen1 pageLinks) as [[ga sa] da].
    destruct (addPagesLoop g seen2 pageLinks) as [[gb sb] db].
    simpl in *. subst. intros [= <- <-]. by exists sb.
  - rewrite !execWords_addLinks. cbn [store errSeen].
    destruct pageLinks as [|a [|b rest]].
    + intros [= <- <-]. by exists 1.
    + intros [= <- <-]. by exists seen2.
    + destruct (addLinksLoop_counter a (b :: rest) g seen1 seen2) as [Hg Hd].
      destruct (addLinksLoop g seen1 a (b :: rest)) as [[ga sa] da].
      destruct (addLinksLoop g seen2 a (b :: rest)) as [[gb sb] db].
      simpl in *. subst. intros [= <- <-]. by exists sb.
  - rewrite !execWords_isConnected. cbn [store errSeen].
    destruct pageLinks as [|a [|b [|c rest]]];
      try (intros [= <- <-]; by eexists).
    destruct (_ && _); [|intros [= <- <-]; by eexists].
    destruct (printConnection g a b) as [[r g']|]; [|done].
    intros [= <- <-]. by eexists.
  - rewrite !execWords_invalid by done. intros [= <- <-]. by exists 1.
Qed.

Lemma runWords_counter (lines : list (list string)) :
  forall g seen1 seen2 st1 effs,
    runWords (State g seen1) lines = Some (st1, effs) ->
    exists seen, runWords (State g seen2) lines = Some (State (store st1) seen, effs).
Proof.
  induction lines as [|words rest IH]; intros g seen1 seen2 st1 effs; simpl.
  - intros [= <- <-]. by exists seen2.
  - destruct (execWords (State g seen1) words) as [[sta eff]|] eqn:E; [|done].
    destruct (execWords_counter g seen1 seen2 words sta eff E) as (seen & ->).
    destruct sta as [ga sa]. cbn [store].
    destruct (runWords (State ga sa) rest) as [[stb effs2]|] eqn:Hrun; [|done].
    intros [= <- <-].
    destruct (IH ga sa seen stb effs2 Hrun) as (seen' & ->). by exists seen'.
Qed.

(** X17.  Surplus arguments do not stop the program: called with a file
    and more arguments, [main] says so, then runs the lines of the file as
    it would without the surplus, with the same output and the same
    messages line by line, and exits with status 1 whether or not a line
    fails.  When the file cannot be opened it exits with status 1 and runs
    no line, the standard input being left unread.  (For inputs of fewer
    than [Int.max_signed] words, on which the count of errors stays in
    range.) *)
Theorem main_with_surplus_arguments (argc : Z) (lines stdin : list string) :
  2 < argc ->
  wordTotal (map lineWords lines) < Int.max_signed ->
  main argc None stdin = Some (1, [CannotOpen], []) /\
  exists st effs,
    main 2 (Some lines) stdin = Some (exitStatus st, [], effs) /\
    runLines initial lines = Some (st, effs) /\
    main argc (Some lines) stdin = Some (1, [TooManyArguments], effs).
Proof.
  intros Hargc Hmax. unfold main.
  assert (H1 : (1 <? argc) = true) by (apply Z.ltb_lt; lia).
  assert (H2 : (2 <? argc) = true) by (apply Z.ltb_lt; lia).
  rewrite H1, H2. split; [done|].
  change (1 <? 2) with true. change (2 <? 2) with false. cbv iota beta.
  unfold runLines in *.
  destruct (runWords_total (map lineWords lines) initial wellFormed_nil)
    as (st & effs & Hrun & _).
  exists st, effs. unfold initial in Hrun. rewrite Hrun.
  split; [done|]. split; [done|].
  destruct (runWords_counter _ _ _ 1 _ _ Hrun) as (seen & Hrun1).
  rewrite Hrun1.
  destruct (runWords_count _ _ _ _ Hrun1) as [_ Hiff];
    [simpl; lia|simpl; unfold Int.max_signed in *; lia|].
  simpl in Hiff. assert (Hseen : 1 <= seen) by (apply Hiff; left; lia).
  unfold exitStatus. simpl. apply Z.leb_le in Hseen. by rewrite Hseen.
Qed.

Lemma main_with_surplus_arguments_witness :
  2 < 4 /\
  wordTotal (map lineWords chainInput) < Int.max_signed /\
  main 4 None mixedInput = Some (1, [CannotOpen], []) /\
  exists st effs,
    main 2 (Some chainInput) mixedInput = Some (exitStatus st, [], effs) /\
    runLines initial chainInput = Some (st, effs) /\
    main 4 (Some chainInput) mixedInput = Some (1, [TooManyArguments], effs).
Proof.
  assert (H1 : 2 < 4) by lia.
  assert (H2 : wordTotal (map lineWords chainInput) < Int.max_signed)
    by (vm_compute; reflexivity).
  split; [exact H1|]. split; [exact H2|].
  exact (main_with_surplus_arguments 4 chainInput mixedInput H1 H2).
Defined.

Example main_reads_stdin :
  main 1 None mixedInput =
  Some (1, [],
        [Effect [] []; Effect [] [PageMissing]; Effect [] []; Effect [1] []]).
Proof. reflexivity. Qed.

(** ** Answers and the links that exist *)

Lemma linked_cases (g : graph) (i j : nat) :
  linked g i j ->
  i = j \/
  ((exists p e, g !! i = Some p /\ e ∈ edges p) /\
   (exists k q, g !! k = Some q /\ j ∈ edges q)).
Proof.
  induction 1 as [i p Hi|i e j p Hi He Hlink IH]; [by left|].
  right. split; [by exists p, e|].
  destruct IH as [->|[_ Hin]]; [by exists i, p|done].
Qed.

(** X18.  A page that no page links to is reached from itself only, and a
    page without links reaches itself only: on a well-formed store the
    query between two different pages prints 0 when no page of the store
    links to the second, and when the first has no link. *)
Theorem unlinked_pages_are_apart (g : graph) (one two : string) (i j : nat) :
  wellFormed g ->
  findNode g one = Some i -> findNode g two = Some j -> i <> j ->
  (forall k q, g !! k = Some q -> j ∉ edges q) \/
  (forall p, g !! i = Some p -> edges p = []) ->
  printConnection g one two = Some (0, g).
Proof.
  intros Hwf Hi Hj Hne Hapart.
  apply (printConnection_linked g one two i j Hwf Hi Hj).
  intros Hlink. destruct (linked_cases _ _ _ Hlink) as [->|[Hout Hin]]; [done|].
  destruct Hapart as [Hnone|Hnone].
  - destruct Hin as (k & q & Hk & Hq). by apply (Hnone k q Hk).
  - destruct Hout as (p & e & Hp & He). rewrite (Hnone p Hp) in He. inversion He.
Qed.

Lemma unlinked_pages_are_apart_witness :
  wellFormed chainStore /\
  findNode chainStore "Y" = Some 1%nat /\ findNode chainStore "X" = Some 0%nat /\
  printConnection chainStore "Y" "X" = Some (0, chainStore) /\
  printConnection chainStore "Z" "Y" = Some (0, chainStore).
Proof.
  split; [exact chainStore_wellFormed|]. split; [reflexivity|]. split; [reflexivity|].
  split.
  - apply (unlinked_pages_are_apart chainStore "Y" "X" 1 0 chainStore_wellFormed
             eq_refl eq_refl); [lia|].
    left. intros [|[|[|k]]] q Hk; simpl in Hk; try discriminate;
      injection Hk as <-; simpl; intros Hin;
      repeat (apply elem_of_cons in Hin; destruct Hin as [Hin|Hin]; [discriminate|]);
      inversion Hin.
  - apply (unlinked_pages_are_apart chainStore "Z" "Y" 2 1 chainStore_wellFormed
             eq_refl eq_refl); [lia|].
    right. intros p Hp. simpl in Hp. by injection Hp as <-.
Defined.

Lemma sameLinks_sym (g g' : graph) : sameLinks g g' -> sameLinks g' g.
Proof.
  induction 1 as [|p q g g' [Hn He] _ IH]; constructor; [|done].
  split; [done|]. intros e. by rewrite He.
Qed.

Lemma sameLinks_names (g g' : graph) : sameLinks g g' -> map name g = map name g'.
Proof. induction 1 as [|p q g g' [Hn He] _ IH]; simpl; congruence. Qed.

Lemma linked_sameLinks (g g' : graph) (i j : nat) :
  sameLinks g g' -> linked g i j -> linked g' i j.
Proof.
  intros Hs. induction 1 as [i p Hi|i e j p Hi He _ IH].
  - destruct (Forall2_lookup_l _ _ _ _ _ Hs Hi) as (q & Hq & _). by eapply linked_here.
  - destruct (Forall2_lookup_l _ _ _ _ _ Hs Hi) as (q & Hq & _ & Hedges).
    eapply linked_step; [exact Hq| |exact IH]. by apply Hedges.
Qed.

(** X19.  The answers depend on which links exist, not on their order in
    a page nor on how often a link was added: two well-formed stores with
    the same pages, each linking to the same pages, give every query the
    same answer. *)
Theorem answers_ignore_order_and_repeats (g g' : graph) (one two : string) (r : Z) :
  wellFormed g -> wellFormed g' -> sameLinks g g' ->
  (printConnection g one two = Some (r, g) <->
   printConnection g' one two = Some (r, g')).
Proof.
  assert (Hhalf : forall h h', wellFormed h -> wellFormed h' -> sameLinks h h' ->
    printConnection h one two = Some (r, h) ->
    printConnection h' one two = Some (r, h')).
  { intros h h' Hwf Hwf' Hs Hprint.
    destruct (printConnection_found _ _ _ _ _ Hprint) as (i & j & Hi & Hj).
    pose proof (sameLinks_names _ _ Hs) as Hnames.
    assert (Hi' : findNode h' one = Some i) by (by rewrite <- (findNode_names h h')).
    assert (Hj' : findNode h' two = Some j) by (by rewrite <- (findNode_names h h')).
    destruct (findNode_Some _ _ _ Hi) as (p & Hp & Hnp & _).
    destruct (findNode_Some _ _ _ Hj) as (q & Hq & Hnq & _).
    destruct (printConnection_wellFormed h one two Hwf) as (r0 & Hr0 & Hcases).
    { subst one. by eapply findPage_position. }
    { subst two. by eapply findPage_position. }
    rewrite Hr0 in Hprint. injection Hprint as ->.
    destruct Hcases as [-> | ->].
    - apply (printConnection_linked h' one two i j Hwf' Hi' Hj').
      intros Hlink. apply (printConnection_linked h one two i j Hwf Hi Hj); [done|].
      eapply linked_sameLinks; [|exact Hlink]. by apply sameLinks_sym.
    - apply (printConnection_linked h' one two i j Hwf' Hi' Hj').
      eapply linked_sameLinks; [exact Hs|].
      by apply (printConnection_linked h one two i j Hwf Hi Hj). }
  intros Hwf Hwf' Hs. split; [by apply Hhalf|].
  apply Hhalf; [done|done|by apply sameLinks_sym].
Qed.

Lemma forkStore_wellFormed : wellFormed forkStore.
Proof.
  split.
  - unfold namesUnique. apply (bool_decide_unpack _). vm_compute. exact I.
  - unfold linksValid, forkStore. repeat constructor; simpl; lia.
  - unfold allUnvisited, forkStore. repeat constructor.
Defined.

Lemma forkStoreAgain_wellFormed : wellFormed forkStoreAgain.
Proof.
  split.
  - unfold namesUnique. apply (bool_decide_unpack _). vm_compute. exact I.
  - unfold linksValid, forkStoreAgain. repeat constructor; simpl; lia.
  - unfold allUnvisited, forkStoreAgain. repeat constructor.
Defined.

Lemma forkStore_sameLinks : sameLinks forkStore forkStoreAgain.
Proof.
  unfold sameLinks, forkStore, forkStoreAgain.
  repeat (constructor; [split; [reflexivity|]; intros e; simpl;
                        rewrite ?elem_of_cons; tauto|]).
  constructor.
Defined.

Lemma answers_ignore_order_and_repeats_witness :
  wellFormed forkStore /\ wellFormed forkStoreAgain /\
  sameLinks forkStore forkStoreAgain /\
  printConnection forkStore "B" "C" = Some (1, forkStore) /\
  printConnection forkStoreAgain "B" "C" = Some (1, forkStoreAgain).
Proof.
  split; [exact forkStore_wellFormed|]. split; [exact forkStoreAgain_wellFormed|].
  split; [exact forkStore_sameLinks|]. split; [reflexivity|].
  apply (answers_ignore_order_and_repeats forkStore forkStoreAgain "B" "C" 1
           forkStore_wellFormed forkStoreAgain_wellFormed forkStore_sameLinks).
  reflexivity.
Defined.

(** ** The exit status and the lines in error *)

Lemma freshNames_all (pageLinks : list string) :
  forall known,
    length (freshNames known pageLinks) = length pageLinks <->
    NoDup pageLinks /\ forall w, w ∈ pageLinks -> w ∉ known.
Proof.
  induction pageLinks as [|a rest IH]; intros known; simpl.
  - split; [|done]. intros _. split; [constructor|]. intros w Hw. inversion Hw.
  - destruct (decide (a ∈ known)) as [Hin|Hn].
    + rewrite bool_decide_eq_true_2 by done. split.
      * intros Hlen. pose proof (freshNames_length rest known). lia.
      * intros [_ Hall]. destruct (Hall a); [apply list_elem_of_here|done].
    + rewrite bool_decide_eq_false_2 by done. simpl. split.
      * intros Hlen. assert (Hlen' : length (freshNames (known ++ [a]) rest) = length rest)
          by lia.
        apply IH in Hlen'. destruct Hlen' as [Hnd Hall]. split.
        -- apply NoDup_cons. split; [|done]. intros Ha.
           apply (Hall a Ha). apply elem_of_app. right. apply list_elem_of_here.
        -- intros w [->|Hw]%elem_of_cons; [done|].
           intros Hk. apply (Hall w Hw). apply elem_of_app. by left.
      * intros [Hnd Hall]. apply NoDup_cons in Hnd. destruct Hnd as [Ha Hnd].
        f_equal. apply IH. split; [done|].
        intros w Hw [Hk|Hk]%elem_of_app.
        -- apply (Hall w); [by apply list_elem_of_further|done].
        -- apply list_elem_of_singleton in Hk. by subst.
Qed.

(** An [@addPages] line reports something exactly when one of its names is
    taken or comes twice. *)
Lemma addPagesLoop_failed (pageLinks : list string) (g : graph) (seen : Z) :
  (addPagesLoop g seen pageLinks).2 <> [] <->
  (exists w, w ∈ pageLinks /\ w ∈ map name g) \/ ~ NoDup pageLinks.
Proof.
  destruct (addPagesLoop_fresh pageLinks g seen) as (_ & n & Hd & Hlen).
  rewrite Hd. pose proof (freshNames_all pageLinks (map name g)) as Hall.
  split.
  - intros Hne. assert (Hn : n <> 0%nat) by (by intros ->).
    destruct (decide (NoDup pageLinks)) as [Hnd|Hnd]; [|by right]. left.
    destruct (decide (Exists (fun w => w ∈ map name g) pageLinks)) as [Hex|Hex].
    + apply Exists_exists in Hex. destruct Hex as (w & Hw & Hin). by exists w.
    + assert (length (freshNames (map name g) pageLinks) = length pageLinks); [|lia].
      apply Hall. split; [done|]. intros w Hw Hin. apply Hex.
      apply Exists_exists. by exists w.
  - intros Herr Hnil.
    assert (Hn : n = 0%nat) by (by destruct n).
    assert (Hfresh : length (freshNames (map name g) pageLinks) = length pageLinks)
      by lia.
    apply Hall in Hfresh. destruct Hfresh as [Hnd Hnone].
    destruct Herr as [(w & Hw & Hin)|Hdup]; [by apply (Hnone w)|done].
Qed.

Lemma addLinkToPage_names (g : graph) (srcPage link : string) :
  map name (addLinkToPage g srcPage link).1.1 = map name g.
Proof.
  unfold addLinkToPage.
  destruct (scanLast srcPage g 0 None) as [i|]; [|done].
  destruct (scanLast link g 0 None) as [j|]; [|done].
  by apply alter_names.
Qed.

Lemma addLinkToPage_failed (g : graph) (srcPage link : string) :
  (addLinkToPage g srcPage link).2 <> [] <->
  srcPage ∉ map name g \/ link ∉ map name g.
Proof.
  split.
  - intros Hne. destruct (decide (srcPage ∈ map name g)) as [Hs|Hs]; [|by left].
    destruct (decide (link ∈ map name g)) as [Hd|Hd]; [|by right].
    destruct (scanLast_found g srcPage Hs) as (i & p & Hi & _).
    destruct (scanLast_found g link Hd) as (j & q & Hj & _).
    unfold addLinkToPage in Hne. by rewrite Hi, Hj in Hne.
  - intros Hmiss. by rewrite addLinkToPage_missing.
Qed.

(** The links of an [@addLinks] line: something is reported exactly when
    the source or one of the destinations names no page. *)
Lemma addLinksLoop_failed (srcPage : string) (links : list string) :
  forall g seen,
    (addLinksLoop g seen srcPage links).2 <> [] <->
    exists w, w ∈ links /\ (srcPage ∉ map name g \/ w ∉ map name g).
Proof.
  induction links as [|a rest IH]; intros g seen; simpl.
  - split; [done|]. intros (w & Hw & _). inversion Hw.
  - pose proof (addLinkToPage_failed g srcPage a) as Ha.
    pose proof (addLinkToPage_names g srcPage a) as Hnames.
    destruct (addLinkToPage g srcPage a) as [[g1 r] d]. simpl in Ha, Hnames.
    specialize (IH g1 (Int.add seen r)). rewrite Hnames in IH.
    destruct (addLinksLoop g1 (Int.add seen r) srcPage rest) as [[g2 seen2] ds].
    simpl in *. split.
    + intros Hne. destruct d as [|x d].
      * simpl in Hne. apply IH in Hne. destruct Hne as (w & Hw & Hmiss).
        exists w. split; [by apply list_elem_of_further|done].
      * exists a. split; [apply list_elem_of_here|]. by apply Ha.
    + intros (w & Hw & Hmiss). apply elem_of_cons in Hw. destruct Hw as [->|Hw].
      * apply Ha in Hmiss. by destruct d.
      * intros Hnil. apply app_eq_nil in Hnil. destruct Hnil as [_ Hnil].
        revert Hnil. apply IH. by exists w.
Qed.

(** A line writes to [stderr] exactly when it is in error. *)
Lemma execWords_failed (st st' : state) (words : list string) (eff : effect) :
  execWords st words = Some (st', eff) ->
  (failed eff <-> inError (store st) words).
Proof.
  unfold failed. destruct words as [|word pageLinks].
  { intros [= <- <-]. simpl. split; [done|]. intros H. inversion H. }
  destruct (verb_cases word) as [-> | -> | -> | H1 H2 H3].
  - rewrite execWords_addPages.
    pose proof (addPagesLoop_failed pageLinks (store st) (errSeen st)) as Hf.
    destruct (addPagesLoop _ _ _) as [[g seen] ds]. intros [= <- <-].
    simpl in *. rewrite Hf. split.
    + intros [(w & Hw & Hin)|Hdup];
        [by eapply ErrNameTaken|by apply ErrNameRepeated].
    + intros H. inversion H; subst; try done; [left; by eexists|by right].
  - rewrite execWords_addLinks. destruct pageLinks as [|a [|b rest]].
    + intros [= <- <-]. simpl. split; [intros _; apply ErrNoArgument|done].
    + intros [= <- <-]. simpl. split; [done|]. intros H. inversion H; subst; done.
    + pose proof (addLinksLoop_failed a (b :: rest) (store st) (errSeen st)) as Hf.
      destruct (addLinksLoop _ _ _ _) as [[g seen] ds]. intros [= <- <-].
      simpl in *. rewrite Hf. split.
      * intros (w & Hw & [Hs|Hd]);
          [by apply ErrSourceMissing|by eapply ErrDestinationMissing].
      * intros H. inversion H; subst; try done.
        -- exists b. split; [apply list_elem_of_here|by left].
        -- eexists. split; [eassumption|by right].
  - rewrite execWords_isConnected.
    destruct pageLinks as [|a [|b [|c rest]]].
    1, 2, 4: intros [= <- <-]; simpl; split; [intros _; by apply ErrArgumentCount|done].
    destruct (findPage_cases (store st) a) as [Ha|Ha];
      [destruct (findPage_cases (store st) b) as [Hb|Hb]|].
    + rewrite Ha, Hb. simpl.
      destruct (printConnection (store st) a b) as [[r g]|]; [|done].
      intros [= <- <-]. simpl. split; [done|].
      apply findPage_found in Ha, Hb.
      intros H. inversion H as [| | | | | |? Hlen|? ? Hmiss]; subst; try done.
      by destruct Hmiss.
    + rewrite Ha, Hb. simpl. intros [= <- <-]. simpl. split; [|done].
      intros _. apply ErrPageMissing. right. by apply findPage_absent.
    + rewrite Ha. simpl. intros [= <- <-]. simpl. split; [|done].
      intros _. apply ErrPageMissing. left. by apply findPage_absent.
  - rewrite execWords_invalid by done. intros [= <- <-]. simpl.
    split; [intros _; by apply ErrUnknownVerb|done].
Qed.

(** C9 (as stated, refuted).  A line that is in error by the specification
    can leave the exit status at 0: after [@addPages X], the line
    [@addLinks X], a usage error there, is run without a message, and the
    program exits with status 0. *)
Lemma exit_status_misses_source_only_line :
  runLines initial sourceOnlyInput =
    Some (State [Page "X" [] 0] 0, [Effect [] []; Effect [] []]) /\
  runLines initial ["@addPages X" +:+ nl] =
    Some (State [Page "X" [] 0] 0, [Effect [] []]) /\
  errorBySpec [Page "X" [] 0] (lineWords ("@addLinks X" +:+ nl)) /\
  exitStatus (State [Page "X" [] 0] 0) = 0 /\
  ~ (exitStatus (State [Page "X" [] 0] 0) <> 0 <->
     exists before line after st1 effs1,
       sourceOnlyInput = before ++ line :: after /\
       runLines initial before = Some (st1, effs1) /\
       errorBySpec (store st1) (lineWords line)).
Proof.
  assert (Herr : errorBySpec [Page "X" [] 0] (lineWords ("@addLinks X" +:+ nl))).
  { right. by exists "X". }
  split; [reflexivity|]. split; [reflexivity|]. split; [exact Herr|].
  split; [reflexivity|].
  intros [_ Hclaim]. apply Hclaim; [|reflexivity].
  exists ["@addPages X" +:+ nl], ("@addLinks X" +:+ nl), [],
    (State [Page "X" [] 0] 0), [Effect [] []].
  split; [reflexivity|]. split; [reflexivity|]. exact Herr.
Qed.

(** C9 (amended).  On every input the program reads each line and runs it
    in the state the lines before it left, whether or not they were in
    error; a line writes a message exactly when it is in error, and the exit
    status is 1 when some line of the input is in error in the store it
    meets, 0 when none is.  In error are the lines of [inError]: an unknown
    verb, a name taken or repeated on [@addPages], no argument or a missing
    page on [@addLinks], a wrong count of arguments or a missing page on
    [@isConnected]; an [@addLinks] line with a source and no destination is
    not.  The count of errors is an [int]: the statement is for inputs of at
    most [Int.max_signed] words, on which the count cannot leave its
    range. *)
Theorem exit_status_tells_errors (lines : list string) :
  wordTotal (map lineWords lines) <= Int.max_signed ->
  exists st effs,
    runLines initial lines = Some (st, effs) /\
    length effs = length lines /\
    (exitStatus st = 0 \/ exitStatus st = 1) /\
    (exitStatus st <> 0 <->
     exists before line after st1 effs1,
       lines = before ++ line :: after /\
       runLines initial before = Some (st1, effs1) /\
       inError (store st1) (lineWords line)) /\
    (forall before line after,
       lines = before ++ line :: after ->
       exists st1 effs1 st2 eff,
         runLines initial before = Some (st1, effs1) /\
         execLine st1 line = Some (st2, eff) /\
         effs !! length before = Some eff /\
         (failed eff <-> inError (store st1) (lineWords line))).
Proof.
  intros Hmax.
  destruct (runLines_status lines Hmax) as (st & effs & Hrun & Hlen & Hiff & Hbit & Hline).
  exists st, effs. split; [done|]. split; [done|]. split; [done|].
  assert (Hline' : forall before line after,
    lines = before ++ line :: after ->
    exists st1 effs1 st2 eff,
      runLines initial before = Some (st1, effs1) /\
      execLine st1 line = Some (st2, eff) /\
      effs !! length before = Some eff /\
      (failed eff <-> inError (store st1) (lineWords line))).
  { intros before line after Hsplit.
    destruct (Hline before line after Hsplit) as (st1 & effs1 & st2 & eff & H1 & H2 & H3).
    exists st1, effs1, st2, eff. split; [done|]. split; [done|]. split; [done|].
    by eapply execWords_failed. }
  split; [|exact Hline'].
  rewrite Hiff. split.
  - intros Hex. apply Exists_exists in Hex. destruct Hex as (eff & Hin & Hfail).
    apply list_elem_of_lookup in Hin. destruct Hin as [k Hk].
    assert (Hlt : (k < length lines)%nat).
    { rewrite <- Hlen. by eapply lookup_lt_Some. }
    destruct (lookup_lt_is_Some_2 lines k Hlt) as [line Hl].
    pose proof (take_drop_middle lines k line Hl) as Hsplit. symmetry in Hsplit.
    destruct (Hline' _ _ _ Hsplit) as (st1 & effs1 & st2 & eff' & H1 & H2 & H3 & H4).
    rewrite length_take_le in H3 by lia. rewrite Hk in H3. injection H3 as <-.
    exists (take k lines), line, (drop (S k) lines), st1, effs1.
    split; [done|]. split; [done|]. by apply H4.
  - intros (before & line & after & st1 & effs1 & Hsplit & Hrun1 & Herr).
    destruct (Hline' _ _ _ Hsplit) as (st1' & effs1' & st2 & eff & H1 & H2 & H3 & H4).
    rewrite Hrun1 in H1. injection H1 as <- <-.
    apply Exists_exists. exists eff. split; [by eapply list_elem_of_lookup_2|].
    by apply H4.
Qed.

Lemma exit_status_tells_errors_witness :
  wordTotal (map lineWords mixedInput) <= Int.max_signed /\
  exists st effs,
    runLines initial mixedInput = Some (st, effs) /\
    length effs = length mixedInput /\
    (exitStatus st = 0 \/ exitStatus st = 1) /\
    (exitStatus st <> 0 <->
     exists before line after st1 effs1,
       mixedInput = before ++ line :: after /\
       runLines initial before = Some (st1, effs1) /\
       inError (store st1) (lineWords line)) /\
    (forall before line after,
       mixedInput = before ++ line :: after ->
       exists st1 effs1 st2 eff,
         runLines initial before = Some (st1, effs1) /\
         execLine st1 line = Some (st2, eff) /\
         effs !! length before = Some eff /\
         (failed eff <-> inError (store st1) (lineWords line))).
Proof.
  assert (H : wordTotal (map lineWords mixedInput) <= Int.max_signed)
    by (vm_compute; discriminate).
  split; [exact H|]. exact (exit_status_tells_errors mixedInput H).
Defined.

Example mixedInput_line_in_error :
  inError [Page "X" [] 0; Page "Y" [] 0] (lineWords ("@isConnected Q R" +:+ nl)).
Proof.
  apply ErrPageMissing. left. apply findPage_absent. reflexivity.
Qed.

(** A line is read up to its first character 0: what follows it is not
    seen. *)
Example line_cut_at_nul :
  lineWords ("@addPages A" +:+ String nul (" B C" +:+ nl)) = ["@addPages"; "A"] /\
  execLine initial ("@addPages A" +:+ String nul (" B C" +:+ nl)) =
    Some (State [Page "A" [] 0] 0, Effect [] []).
Proof. split; reflexivity. Qed.
